(** * abort-controller-x: cancellation error helpers and the [all] / [race]
    combinators.

    A shallow embedding of [src/es/AbortError.js] and [src/lib/all.js] (which
    holds the compiled [all.js] followed by the compiled [race.js]).

    - JavaScript values are an inductive type; an object carries the identity
      of the constructor that built it and the properties a [[Get]] sees.
    - A function that may [throw] returns a [completion].
    - A combinator call is a state machine: [all] / [race] build the state the
      promise executor leaves behind, and [step] delivers one event of the
      event loop to it (the outer signal aborts, or one of the promises
      returned by the executor settles and the callbacks passed to [then]
      run). *)

From stdpp Require Import base list strings.

Open Scope string_scope.

(* ===================================================================== *)
(** ** JavaScript values *)
(* ===================================================================== *)

(** Identity of a constructor function: two copies of this library loaded in
    different realms (or bundled twice) have distinct [AbortError] classes. *)
Record class_ref := { realm : nat; class_name : string }.

#[global] Instance class_ref_eq_dec : EqDecision class_ref.
Proof. solve_decision. Defined.

#[local] Set Warnings "-register-all".

Inductive value :=
| VUndefined
| VNull
| VBoolean (b : bool)
| VNumber (n : Z)
| VString (s : string)
| VSymbol (id : nat)
| VFunction (props : list (string * value))
| VObject (ctor : class_ref) (props : list (string * value)).

(** The [typeof] operator. *)
Definition typeof (v : value) : string :=
  match v with
  | VUndefined => "undefined"
  | VNull => "object"
  | VBoolean _ => "boolean"
  | VNumber _ => "number"
  | VString _ => "string"
  | VSymbol _ => "symbol"
  | VFunction _ => "function"
  | VObject _ _ => "object"
  end.

Fixpoint lookup_prop (key : string) (props : list (string * value)) : value :=
  match props with
  | [] => VUndefined
  | (k, v) :: rest => if String.eqb k key then v else lookup_prop key rest
  end.

(** Member access [v.key].  On [undefined] and [null] JavaScript throws; the
    only member access of the source sits behind [error !== null] and
    [typeof error === 'object'], so that case is never evaluated there. *)
Definition get (v : value) (key : string) : value :=
  match v with
  | VObject _ props | VFunction props => lookup_prop key props
  | _ => VUndefined
  end.

(** [v === 'literal'] against a string literal. *)
Definition strict_eq_string (v : value) (lit : string) : bool :=
  match v with
  | VString s => String.eqb s lit
  | _ => false
  end.

(** [v !== null]. *)
Definition not_null (v : value) : bool :=
  match v with
  | VNull => false
  | _ => true
  end.

(** [v instanceof C], by constructor identity (what the source warns
    against using). *)
Definition instanceof (v : value) (c : class_ref) : bool :=
  match v with
  | VObject c' _ => bool_decide (c' = c)
  | _ => false
  end.

(** Result of running a function body: it returns, or it throws. *)
Inductive completion (A : Type) :=
| Normal (a : A)
| Throw (e : value).
Arguments Normal {A} a.
Arguments Throw {A} e.

(* ===================================================================== *)
(** ** AbortError.js *)
(* ===================================================================== *)

(** The [AbortError] class of the realm [r]. *)
Definition AbortError (r : nat) : class_ref :=
  {| realm := r; class_name := "AbortError" |}.

(** [new AbortError()] evaluated in realm [r]: the constructor sets [message]
    and [name]. *)
Definition new_AbortError_in (r : nat) : value :=
  VObject (AbortError r)
    [("message", VString "The operation has been aborted");
     ("name", VString "AbortError")].

(** The realm this copy of the library runs in. *)
Definition this_realm : nat := 0.

Definition new_AbortError : value := new_AbortError_in this_realm.

Definition isAbortError (error : value) : bool :=
  String.eqb (typeof error) "object"
  && not_null error
  && strict_eq_string (get error "name") "AbortError".

(** An [AbortSignal] as the library uses it: the [aborted] flag and the
    ['abort'] listeners currently registered, each a callback identity. *)
Record AbortSignal := { aborted : bool; listeners : list nat }.

Definition throwIfAborted (signal : AbortSignal) : completion unit :=
  if aborted signal then Throw new_AbortError else Normal tt.

Definition rethrowAbortError (error : value) : completion unit :=
  if isAbortError error then Throw error else Normal tt.

Definition catchAbortError (error : value) : completion unit :=
  if isAbortError error then Normal tt else Throw error.

Close Scope string_scope.

(* ===================================================================== *)
(** ** Signals, promises and the event loop *)
(* ===================================================================== *)

(** [signal.addEventListener('abort', l)]: a callback already registered is
    not registered again. *)
Definition addEventListener (l : nat) (signal : AbortSignal) : AbortSignal :=
  if bool_decide (l ∈ listeners signal) then signal
  else {| aborted := aborted signal; listeners := listeners signal ++ [l] |}.

(** [signal.removeEventListener('abort', l)]. *)
Definition removeEventListener (l : nat) (signal : AbortSignal) : AbortSignal :=
  {| aborted := aborted signal;
     listeners := filter (λ x, x ≠ l) (listeners signal) |}.

(** The identity of a closure created by the running call: distinct from
    every callback already registered on the signal. *)
Definition fresh_listener (signal : AbortSignal) : nat :=
  S (foldr Nat.max 0 (listeners signal)).

(** [new AbortController().signal]. *)
Definition new_signal : AbortSignal := {| aborted := false; listeners := [] |}.

(** [controller.abort()] as seen on the controller's signal: the flag is set,
    once. *)
Definition abort (signal : AbortSignal) : AbortSignal :=
  {| aborted := true; listeners := listeners signal |}.

(** How a promise settled: [{status: 'fulfilled', value}] or
    [{status: 'rejected', reason}]. *)
Inductive settlement (T : Type) :=
| Fulfilled (v : T)
| Rejected (reason : value).
Arguments Fulfilled {T} v.
Arguments Rejected {T} reason.

(** A promise returned by the executor, by object identity. *)
Definition future := nat.

(** What the event loop delivers to a pending call: the outer signal is
    aborted by its owner, or the promise at position [i] of the executor's
    sequence settles and the callbacks given to its [then] run. *)
Inductive event :=
| SignalAborts
| Settles (i : nat) (s : settlement value).

(** [arr[i] = v] on an array with holes ([None]): past the end the array
    grows, the new slots in between staying holes. *)
Definition array_set {A} (i : nat) (v : A) (arr : list (option A)) : list (option A) :=
  if (i <? length arr)%nat then <[i := Some v]> arr
  else arr ++ replicate (i - length arr) None ++ [Some v].

(** [true] when the promise at position [i] has settled already, given the
    settlements delivered so far. *)
Definition has_settled (i : nat) (log : list (nat * settlement value)) : bool :=
  bool_decide (i ∈ log.*1).

(** The first genuine (non-cancellation) rejection reason among settlements,
    in the order they were delivered. *)
Fixpoint first_genuine (log : list (settlement value)) : option value :=
  match log with
  | [] => None
  | Rejected reason :: rest =>
      if isAbortError reason then first_genuine rest else Some reason
  | Fulfilled _ :: rest => first_genuine rest
  end.

(** The first rejection reason of any kind. *)
Fixpoint first_rejection (log : list (settlement value)) : option value :=
  match log with
  | [] => None
  | Rejected reason :: _ => Some reason
  | Fulfilled _ :: rest => first_rejection rest
  end.

(** The first fulfilment value. *)
Fixpoint first_fulfilment (log : list (settlement value)) : option value :=
  match log with
  | [] => None
  | Fulfilled v :: _ => Some v
  | Rejected _ :: rest => first_fulfilment rest
  end.

(** The first rejection whose reason is a cancellation error. *)
Fixpoint first_cancellation (log : list (settlement value)) : option value :=
  match log with
  | [] => None
  | Rejected reason :: rest =>
      if isAbortError reason then Some reason else first_cancellation rest
  | Fulfilled _ :: rest => first_cancellation rest
  end.

(* ===================================================================== *)
(** ** The part of a call that [all] and [race] have in common *)
(* ===================================================================== *)

(** The objects a combinator call works on: the outer [signal], the
    [innerAbortController] (absent until created), how often [executor] was
    invoked, the [promises] it returned, the [abortListener] closure, and the
    settlements the event loop has delivered so far, oldest first. *)
Record call := {
  signal : AbortSignal;
  innerAbortController : option AbortSignal;
  executor_calls : nat;
  promises : list future;
  abortListener : option nat;
  delivered : list (nat * settlement value)
}.

(** The call returned at [if (signal.aborted) { reject(...); return; }]. *)
Definition left_at_entry (signal : AbortSignal) : call :=
  {| signal := signal; innerAbortController := None; executor_calls := 0;
     promises := []; abortListener := None; delivered := [] |}.

(** [innerAbortController = new AbortController();
     promises = executor(innerAbortController.signal);
     signal.addEventListener('abort', abortListener)]. *)
Definition enter (signal : AbortSignal) (executor : AbortSignal → list future) : call :=
  let inner := new_signal in
  let promises := executor inner in
  let abortListener := fresh_listener signal in
  {| signal := addEventListener abortListener signal;
     innerAbortController := Some inner; executor_calls := 1;
     promises := promises; abortListener := Some abortListener;
     delivered := [] |}.

Definition with_signal (s : AbortSignal) (c : call) : call :=
  {| signal := s; innerAbortController := innerAbortController c;
     executor_calls := executor_calls c; promises := promises c;
     abortListener := abortListener c; delivered := delivered c |}.

(** [innerAbortController.abort()]. *)
Definition innerAbortController_abort (c : call) : call :=
  {| signal := signal c; innerAbortController := abort <$> innerAbortController c;
     executor_calls := executor_calls c; promises := promises c;
     abortListener := abortListener c; delivered := delivered c |}.

(** [signal.removeEventListener('abort', abortListener)]. *)
Definition remove_abortListener (c : call) : call :=
  match abortListener c with
  | Some l => with_signal (removeEventListener l (signal c)) c
  | None => c
  end.

(** The outer signal fires ['abort'] (once): the flag is set and the
    listeners still registered run; [abortListener] aborts the inner
    controller. *)
Definition signal_aborts (c : call) : call :=
  if aborted (signal c) then c
  else
    let c := with_signal (abort (signal c)) c in
    match abortListener c with
    | Some l =>
        if bool_decide (l ∈ listeners (signal c))
        then innerAbortController_abort c else c
    | None => c
    end.

Definition record_delivery (i : nat) (s : settlement value) (c : call) : call :=
  {| signal := signal c; innerAbortController := innerAbortController c;
     executor_calls := executor_calls c; promises := promises c;
     abortListener := abortListener c; delivered := delivered c ++ [(i, s)] |}.

(** The promise at position [i] exists and has not settled yet: a promise
    settles once, and its [then] callbacks run once. *)
Definition pending (i : nat) (c : call) : bool :=
  (i <? length (promises c))%nat && negb (has_settled i (delivered c)).

(** Every promise returned by the executor has settled. *)
Definition all_settled (c : call) : bool :=
  forallb (λ i, has_settled i (delivered c)) (seq 0 (length (promises c))).

(** [abortListener] is currently registered on the outer signal. *)
Definition listening (c : call) : bool :=
  match abortListener c with
  | Some l => bool_decide (l ∈ listeners (signal c))
  | None => false
  end.

(* ===================================================================== *)
(** ** all.js *)
(* ===================================================================== *)

Module All.

(** The call, the closure variables [rejection], [results], [settledCount],
    and the state of the promise [all] returned ([None] while pending). *)
Record state := {
  env : call;
  rejection : option value;
  results : list (option value);
  settledCount : nat;
  outcome : option (settlement (list (option value)))
}.

Definition with_env (c : call) (st : state) : state :=
  {| env := c; rejection := rejection st; results := results st;
     settledCount := settledCount st; outcome := outcome st |}.

Definition with_rejection (r : option value) (st : state) : state :=
  {| env := env st; rejection := r; results := results st;
     settledCount := settledCount st; outcome := outcome st |}.

Definition with_results (rs : list (option value)) (st : state) : state :=
  {| env := env st; rejection := rejection st; results := rs;
     settledCount := settledCount st; outcome := outcome st |}.

Definition with_settledCount (n : nat) (st : state) : state :=
  {| env := env st; rejection := rejection st; results := results st;
     settledCount := n; outcome := outcome st |}.

(** [resolve] and [reject] of the returned promise: only the first call has
    an effect. *)
Definition settle_with (s : settlement (list (option value))) (st : state) : state :=
  match outcome st with
  | Some _ => st
  | None =>
      {| env := env st; rejection := rejection st; results := results st;
         settledCount := settledCount st; outcome := Some s |}
  end.

Definition resolve (v : list (option value)) : state → state := settle_with (Fulfilled v).
Definition reject (reason : value) : state → state := settle_with (Rejected reason).

Definition settled (st : state) : state :=
  let st := with_settledCount (settledCount st + 1) st in
  if (settledCount st =? length (promises (env st)))%nat then
    let st := with_env (remove_abortListener (env st)) st in
    match rejection st with
    | Some reason => reject reason st
    | None => resolve (results st) st
    end
  else st.

(** [value => { results[i] = value; settled(); }]. *)
Definition onFulfilled (i : nat) (v : value) (st : state) : state :=
  settled (with_results (array_set i v (results st)) st).

(** The test guarding [rejection = { reason }]. *)
Definition replaces (reason : value) (rejection : option value) : bool :=
  match rejection with
  | None => true
  | Some current => negb (isAbortError reason) && isAbortError current
  end.

(** [reason => { innerAbortController.abort(); if (...) rejection = { reason };
    settled(); }]. *)
Definition onRejected (reason : value) (st : state) : state :=
  let st := with_env (innerAbortController_abort (env st)) st in
  let st := if replaces reason (rejection st)
            then with_rejection (Some reason) st else st in
  settled st.

Definition all (signal : AbortSignal) (executor : AbortSignal → list future) : state :=
  if aborted signal then
    {| env := left_at_entry signal; rejection := None; results := [];
       settledCount := 0; outcome := Some (Rejected new_AbortError) |}
  else
    let c := enter signal executor in
    {| env := c; rejection := None;
       results := replicate (length (promises c)) None;
       settledCount := 0; outcome := None |}.

Definition step (st : state) (ev : event) : state :=
  match ev with
  | SignalAborts => with_env (signal_aborts (env st)) st
  | Settles i s =>
      if pending i (env st) then
        let st := with_env (record_delivery i s (env st)) st in
        match s with
        | Fulfilled v => onFulfilled i v st
        | Rejected reason => onRejected reason st
        end
      else st
  end.

Definition run (st : state) (trace : list event) : state := foldl step st trace.

(** The call [all(signal, executor)] followed by the events of [trace]. *)
Definition exec (signal : AbortSignal) (executor : AbortSignal → list future)
    (trace : list event) : state :=
  run (all signal executor) trace.

End All.

(* ===================================================================== *)
(** ** race.js *)
(* ===================================================================== *)

Module Race.

(** The call, the closure variables [settledCount] and [result], and the
    state of the promise [race] returned. *)
Record state := {
  env : call;
  settledCount : nat;
  result : option (settlement value);
  outcome : option (settlement value)
}.

Definition with_env (c : call) (st : state) : state :=
  {| env := c; settledCount := settledCount st; result := result st;
     outcome := outcome st |}.

Definition with_settledCount (n : nat) (st : state) : state :=
  {| env := env st; settledCount := n; result := result st;
     outcome := outcome st |}.

Definition with_result (r : option (settlement value)) (st : state) : state :=
  {| env := env st; settledCount := settledCount st; result := r;
     outcome := outcome st |}.

Definition settle_with (s : settlement value) (st : state) : state :=
  match outcome st with
  | Some _ => st
  | None =>
      {| env := env st; settledCount := settledCount st; result := result st;
         outcome := Some s |}
  end.

Definition resolve (v : value) : state → state := settle_with (Fulfilled v).
Definition reject (reason : value) : state → state := settle_with (Rejected reason).

(** [settled(result)].  The callers pass the variable [result], which they
    have assigned by then; on [undefined] the read of [result.status] would
    throw inside the callback and leave the returned promise as it is. *)
Definition settled (result : option (settlement value)) (st : state) : state :=
  let st := with_env (innerAbortController_abort (env st)) st in
  let st := with_settledCount (settledCount st + 1) st in
  if (settledCount st =? length (promises (env st)))%nat then
    let st := with_env (remove_abortListener (env st)) st in
    match result with
    | Some (Fulfilled v) => resolve v st
    | Some (Rejected reason) => reject reason st
    | None => st
    end
  else st.

(** The test guarding [result = { status: 'rejected', reason }]. *)
Definition replaces (reason : value) (result : option (settlement value)) : bool :=
  match result with
  | None => true
  | Some current =>
      negb (isAbortError reason)
      && match current with
         | Fulfilled _ => true
         | Rejected r => isAbortError r
         end
  end.

(** [value => { if (result == null) result = { status: 'fulfilled', value };
    settled(result); }]. *)
Definition onFulfilled (v : value) (st : state) : state :=
  let st := match result st with
            | None => with_result (Some (Fulfilled v)) st
            | Some _ => st
            end in
  settled (result st) st.

(** [reason => { if (...) result = { status: 'rejected', reason };
    settled(result); }]. *)
Definition onRejected (reason : value) (st : state) : state :=
  let st := if replaces reason (result st)
            then with_result (Some (Rejected reason)) st else st in
  settled (result st) st.

Definition race (signal : AbortSignal) (executor : AbortSignal → list future) : state :=
  if aborted signal then
    {| env := left_at_entry signal; settledCount := 0; result := None;
       outcome := Some (Rejected new_AbortError) |}
  else
    {| env := enter signal executor; settledCount := 0; result := None;
       outcome := None |}.

Definition step (st : state) (ev : event) : state :=
  match ev with
  | SignalAborts => with_env (signal_aborts (env st)) st
  | Settles i s =>
      if pending i (env st) then
        let st := with_env (record_delivery i s (env st)) st in
        match s with
        | Fulfilled v => onFulfilled v st
        | Rejected reason => onRejected reason st
        end
      else st
  end.

Definition run (st : state) (trace : list event) : state := foldl step st trace.

(** The call [race(signal, executor)] followed by the events of [trace]. *)
Definition exec (signal : AbortSignal) (executor : AbortSignal → list future)
    (trace : list event) : state :=
  run (race signal executor) trace.

End Race.

(* ===================================================================== *)
(** ** Choice rules over the delivered settlements *)
(* ===================================================================== *)

(** The reasons and values delivered so far, oldest first. *)
Definition history (c : call) : list (settlement value) := (delivered c).*2.

(** The settlements a trace announces, in order. *)
Fixpoint settle_events (trace : list event) : list (nat * settlement value) :=
  match trace with
  | [] => []
  | SignalAborts :: rest => settle_events rest
  | Settles i s :: rest => (i, s) :: settle_events rest
  end.

(** The failure [all] ends up with: the first genuine rejection, else the
    first rejection. *)
Definition all_choice (log : list (settlement value)) : option value :=
  match first_genuine log with
  | Some reason => Some reason
  | None => first_rejection log
  end.

(** The settlement [race] ends up with: the first genuine rejection, else
    the first settlement whatever its kind. *)
Definition race_choice (log : list (settlement value)) : option (settlement value) :=
  match first_genuine log with
  | Some reason => Some (Rejected reason)
  | None => head log
  end.

(** The priority rule in the words of the specification of [race]: a genuine
    rejection wins; absent any, the first fulfilment wins; absent both, the
    first cancellation rejection wins. *)
Definition race_priority_rule (log : list (settlement value)) : option (settlement value) :=
  match first_genuine log with
  | Some reason => Some (Rejected reason)
  | None =>
      match first_fulfilment log with
      | Some v => Some (Fulfilled v)
      | None => Rejected <$> first_cancellation log
      end
  end.

(** A settlement is a rejection with a genuine error. *)
Definition is_genuine (s : settlement value) : bool :=
  match s with
  | Rejected reason => negb (isAbortError reason)
  | Fulfilled _ => false
  end.

(* ===================================================================== *)
(** ** Invariants of a running call *)
(* ===================================================================== *)

(** The executor returned at least one promise and all of them have
    settled. *)
Definition finished (c : call) : bool :=
  (0 <? length (promises c))%nat
  && (length (delivered c) =? length (promises c))%nat.

(** What holds of the common part of a call entered with the outer signal
    [signal0], when the closure variable [settledCount] has the value
    [count]. *)
Record call_inv (signal0 : AbortSignal) (c : call) (count : nat) : Prop := {
  inv_executor_calls : executor_calls c = 1;
  inv_abortListener : abortListener c = Some (fresh_listener signal0);
  inv_nodup : NoDup (delivered c).*1;
  inv_bound : Forall (λ i, i < length (promises c)) (delivered c).*1;
  inv_count : count = length (delivered c);
  inv_listeners :
    listeners (signal c) =
    if finished c then listeners signal0
    else listeners signal0 ++ [fresh_listener signal0]
}.

Record all_inv (signal0 : AbortSignal) (st : All.state) : Prop := {
  all_call : call_inv signal0 (All.env st) (All.settledCount st);
  all_rejection : All.rejection st = all_choice (history (All.env st));
  all_results_length :
    length (All.results st) = length (promises (All.env st));
  all_results : ∀ i v,
    All.results st !! i = Some (Some v) ↔
    (i, Fulfilled v) ∈ delivered (All.env st);
  all_outcome :
    All.outcome st =
    if finished (All.env st) then
      Some match All.rejection st with
           | Some reason => Rejected reason
           | None => Fulfilled (All.results st)
           end
    else None
}.

Record race_inv (signal0 : AbortSignal) (st : Race.state) : Prop := {
  race_call : call_inv signal0 (Race.env st) (Race.settledCount st);
  race_result : Race.result st = race_choice (history (Race.env st));
  race_outcome :
    Race.outcome st =
    if finished (Race.env st) then Race.result st else None
}.

(* ===================================================================== *)
(** ** Sample inputs *)
(* ===================================================================== *)

Module Sample.

(** An outer signal that already has a listener of somebody else. *)
Definition outer : AbortSignal := {| aborted := false; listeners := [7] |}.

(** An outer signal aborted before the call. *)
Definition outer_aborted : AbortSignal := {| aborted := true; listeners := [7] |}.

(** An executor returning three promises, and one returning none. *)
Definition three : AbortSignal → list future := λ _, [10; 11; 12].
Definition two : AbortSignal → list future := λ _, [10; 11].
Definition none : AbortSignal → list future := λ _, [].

(** [new Error('boom')]. *)
Definition boom : value :=
  VObject {| realm := 0; class_name := "Error" |}
    [("message", VString "boom"); ("name", VString "Error")]%string.

(** The second promise fails; the others reject once cancelled. *)
Definition one_fails : list event :=
  [Settles 1 (Rejected boom);
   Settles 0 (Rejected new_AbortError);
   Settles 2 (Rejected new_AbortError)].

(** The outer signal aborts, the first promise rejects with the
    cancellation, the second had its value ready and still fulfils. *)
Definition cancelled_then_fulfilled : list event :=
  [SignalAborts;
   Settles 0 (Rejected new_AbortError);
   Settles 1 (Fulfilled (VNumber 1))].

(** One promise fulfils quickly, a later one fails. *)
Definition fulfilled_then_fails : list event :=
  [Settles 0 (Fulfilled (VNumber 1)); Settles 1 (Rejected boom)].

(** Values 3, 1, 2 at positions 0, 1, 2, settling in the order 1, 0, 2. *)
Definition out_of_order : list event :=
  [Settles 1 (Fulfilled (VNumber 1));
   Settles 0 (Fulfilled (VNumber 3));
   Settles 2 (Fulfilled (VNumber 2))].

End Sample.

(* ===================================================================== *)
(** ** Further observations on a call *)
(* ===================================================================== *)

(** [innerAbortController.signal.aborted], [false] while no controller
    exists. *)
Definition inner_aborted (c : call) : bool :=
  match innerAbortController c with
  | Some s => aborted s
  | None => false
  end.

Definition is_rejected (s : settlement value) : bool :=
  match s with
  | Rejected _ => true
  | Fulfilled _ => false
  end.

(** A settlement is a rejection with a cancellation error. *)
Definition is_cancelled (s : settlement value) : bool :=
  match s with
  | Rejected reason => isAbortError reason
  | Fulfilled _ => false
  end.

Definition is_abort_event (ev : event) : bool :=
  match ev with
  | SignalAborts => true
  | Settles _ _ => false
  end.

(** Some settlement has been delivered. *)
Definition any_delivered (c : call) : bool :=
  match delivered c with
  | [] => false
  | _ :: _ => true
  end.

(** The value the promise at position [i] fulfilled with, if it did. *)
Fixpoint value_at (log : list (nat * settlement value)) (i : nat) : option value :=
  match log with
  | [] => None
  | (j, s) :: rest =>
      if bool_decide (j = i) then
        match s with
        | Fulfilled v => Some v
        | Rejected _ => None
        end
      else value_at rest i
  end.

(** Every one of the positions [0 .. n-1] has a settlement in the trace. *)
Definition settles_all (n : nat) (trace : list event) : bool :=
  forallb (λ i, bool_decide (i ∈ (settle_events trace).*1)) (seq 0 n).

(** The trace settles each of the [n] positions exactly once. *)
Definition settles_each_once (n : nat) (trace : list event) : bool :=
  bool_decide (NoDup (settle_events trace).*1)
  && forallb (λ i, i <? n)%nat (settle_events trace).*1
  && (length (settle_events trace) =? n)%nat.

(** How the inner controller follows the call: it exists; it is aborted once
    [trigger] holds, and once the outer signal aborted while the call was
    unfinished; and it is aborted for no other reason. *)
Record cascade_inv (trigger : bool) (c : call) : Prop := {
  cascade_exists : is_Some (innerAbortController c);
  cascade_trigger : trigger = true → inner_aborted c = true;
  cascade_outer :
    aborted (signal c) = true → finished c = false → inner_aborted c = true;
  cascade_only :
    inner_aborted c = true → trigger = true ∨ aborted (signal c) = true
}.

(** The call after the callbacks of one settlement: the settlement is on
    record, the inner controller is aborted when the callback does so
    ([aborts]), and the listener is gone when this was the last one. *)
Definition after_settlement (aborts last : bool) (i : nat)
    (s : settlement value) (c : call) : call :=
  let c := record_delivery i s c in
  let c := if aborts then innerAbortController_abort c else c in
  if last then remove_abortListener c else c.

Module Scenario.

(** The outer signal aborts and all three promises reject once cancelled. *)
Definition all_cancelled : list event :=
  [SignalAborts;
   Settles 2 (Rejected new_AbortError);
   Settles 0 (Rejected new_AbortError);
   Settles 1 (Rejected new_AbortError)].

(** The outer signal aborts while two promises are still unsettled. *)
Definition aborted_midway : list event :=
  [Settles 1 (Fulfilled (VNumber 1)); SignalAborts].

(** Two promises fulfil, the third has not settled. *)
Definition two_fulfilled : list event :=
  [Settles 1 (Fulfilled (VNumber 1)); Settles 0 (Fulfilled (VNumber 3))].

(** Events arriving after the call has completed. *)
Definition late : list event :=
  [SignalAborts; Settles 0 (Rejected Sample.boom); Settles 5 (Fulfilled VNull)].

End Scenario.

(* ===================================================================== *)
(** ** Lists, listeners and logs *)
(* ===================================================================== *)

Section Lists.

Lemma foldr_max_ge (l : list nat) (x : nat) : x ∈ l → x ≤ foldr Nat.max 0 l.
Proof.
  induction l as [|y l IH]; intros Hx.
  - by apply elem_of_nil in Hx.
  - apply elem_of_cons in Hx as [->|Hx]; simpl; [lia|].
    specialize (IH Hx). lia.
Qed.

Lemma fresh_listener_fresh (s : AbortSignal) : fresh_listener s ∉ listeners s.
Proof.
  intros Hin. apply foldr_max_ge in Hin. unfold fresh_listener in Hin. lia.
Qed.

Lemma filter_ne_fresh (l : nat) (ls : list nat) :
  l ∉ ls → filter (λ x, x ≠ l) (ls ++ [l]) = ls.
Proof.
  intros Hl. rewrite filter_app.
  assert (Hls : filter (λ x, x ≠ l) ls = ls).
  { induction ls as [|y ls IH]; [done|].
    apply not_elem_of_cons in Hl as [Hne Hl].
    rewrite filter_cons_True by congruence. by rewrite IH. }
  rewrite Hls. rewrite filter_cons_False by (intros H; by apply H).
  by rewrite filter_nil, app_nil_r.
Qed.

(** Distinct positions below [n] are at most [n]. *)
Lemma positions_length (n : nat) (l : list nat) :
  NoDup l → Forall (λ i, i < n) l → length l ≤ n.
Proof.
  intros Hnd Hb.
  assert (Hle : length l ≤ length (seq 0 n)); [|by rewrite length_seq in Hle].
  apply submseteq_length, NoDup_submseteq; [done|].
  intros x Hx. apply elem_of_seq. rewrite Forall_forall in Hb.
  specialize (Hb x Hx). lia.
Qed.

Lemma positions_fresh_lt (n i : nat) (l : list nat) :
  NoDup l → Forall (λ i, i < n) l → i < n → i ∉ l → length l < n.
Proof.
  intros Hnd Hb Hi Hni.
  assert (length (i :: l) ≤ n); [|simpl in *; lia].
  apply positions_length; [by constructor|by constructor].
Qed.

(** Distinct positions below [n] cover [0 .. n-1] exactly when there are
    [n] of them. *)
Lemma positions_full (n : nat) (l : list nat) :
  NoDup l → Forall (λ i, i < n) l →
  (∀ i, i < n → i ∈ l) ↔ length l = n.
Proof.
  intros Hnd Hb. split.
  - intros Hall. apply Nat.le_antisymm; [by apply positions_length|].
    assert (Hle : length (seq 0 n) ≤ length l); [|by rewrite length_seq in Hle].
    apply submseteq_length, NoDup_submseteq; [apply NoDup_seq|].
    intros x Hx. apply elem_of_seq in Hx. apply Hall. lia.
  - intros Hlen i Hi.
    assert (Hsub : l ⊆+ seq 0 n).
    { apply NoDup_submseteq; [done|]. intros x Hx. apply elem_of_seq.
      rewrite Forall_forall in Hb. specialize (Hb x Hx). lia. }
    apply submseteq_length_Permutation in Hsub; [|rewrite length_seq; lia].
    rewrite Hsub. apply elem_of_seq. lia.
Qed.

End Lists.

Section Logs.

Implicit Types (log : list (settlement value)) (reason : value).

Lemma first_genuine_app log log' :
  first_genuine (log ++ log') =
  match first_genuine log with
  | Some reason => Some reason
  | None => first_genuine log'
  end.
Proof.
  induction log as [|[v|r] log IH]; simpl; [done|done|].
  by destruct (isAbortError r).
Qed.

Lemma first_rejection_app log log' :
  first_rejection (log ++ log') =
  match first_rejection log with
  | Some reason => Some reason
  | None => first_rejection log'
  end.
Proof. induction log as [|[v|r] log IH]; simpl; done. Qed.

Lemma first_genuine_Some log reason :
  first_genuine log = Some reason →
  isAbortError reason = false ∧ Rejected reason ∈ log.
Proof.
  induction log as [|[v|r] log IH]; simpl; [done| |].
  - intros H. destruct (IH H) as [? ?]. split; [done|by right].
  - destruct (isAbortError r) eqn:Hr.
    + intros H. destruct (IH H) as [? ?]. split; [done|by right].
    + intros [= <-]. split; [done|by left].
Qed.

Lemma first_genuine_None log reason :
  first_genuine log = None → Rejected reason ∈ log → isAbortError reason = true.
Proof.
  induction log as [|[v|r] log IH]; simpl; intros Hn Hin.
  - by apply elem_of_nil in Hin.
  - apply elem_of_cons in Hin as [[=]|Hin]. by apply IH.
  - destruct (isAbortError r) eqn:Hr; [|done].
    apply elem_of_cons in Hin as [[= ->]|Hin]; [done|by apply IH].
Qed.

Lemma first_rejection_Some log reason :
  first_rejection log = Some reason → Rejected reason ∈ log.
Proof.
  induction log as [|[v|r] log IH]; simpl; [done| |].
  - intros H. right. by apply IH.
  - intros [= <-]. by left.
Qed.

Lemma first_rejection_None log reason :
  first_rejection log = None → Rejected reason ∉ log.
Proof.
  induction log as [|[v|r] log IH]; simpl; intros Hn Hin.
  - by apply elem_of_nil in Hin.
  - apply elem_of_cons in Hin as [[=]|Hin]. by apply IH in Hin.
  - done.
Qed.

Lemma all_choice_fulfilled log v :
  all_choice (log ++ [Fulfilled v]) = all_choice log.
Proof.
  unfold all_choice. rewrite first_genuine_app, first_rejection_app. simpl.
  destruct (first_genuine log); [done|]. by destruct (first_rejection log).
Qed.

Lemma all_choice_rejected log reason :
  all_choice (log ++ [Rejected reason]) =
  if All.replaces reason (all_choice log) then Some reason else all_choice log.
Proof.
  unfold all_choice. rewrite first_genuine_app, first_rejection_app. simpl.
  destruct (first_genuine log) as [g|] eqn:Hg.
  - apply first_genuine_Some in Hg as [Hg _]. simpl. rewrite Hg.
    by rewrite andb_false_r.
  - destruct (first_rejection log) as [c|] eqn:Hc; simpl.
    + apply first_rejection_Some in Hc.
      rewrite (first_genuine_None log c Hg Hc), andb_true_r.
      by destruct (isAbortError reason).
    + by destruct (isAbortError reason).
Qed.

Lemma race_choice_nil_iff log : race_choice log = None ↔ log = [].
Proof.
  unfold race_choice. split; [|by intros ->].
  destruct (first_genuine log); [done|]. by destruct log.
Qed.

Lemma race_choice_fulfilled log v :
  race_choice (log ++ [Fulfilled v]) =
  match race_choice log with
  | None => Some (Fulfilled v)
  | Some current => Some current
  end.
Proof.
  unfold race_choice. rewrite first_genuine_app. simpl.
  destruct (first_genuine log); [done|]. by destruct log.
Qed.

Lemma race_choice_rejected log reason :
  race_choice (log ++ [Rejected reason]) =
  if Race.replaces reason (race_choice log)
  then Some (Rejected reason) else race_choice log.
Proof.
  unfold race_choice. rewrite first_genuine_app. simpl.
  destruct (first_genuine log) as [g|] eqn:Hg.
  - apply first_genuine_Some in Hg as [Hg _]. simpl. rewrite Hg.
    by rewrite andb_false_r.
  - destruct log as [|[v|r] log]; simpl.
    + by destruct (isAbortError reason).
    + rewrite andb_true_r. by destruct (isAbortError reason).
    + rewrite (first_genuine_None _ r Hg) by by left.
      rewrite andb_true_r. by destruct (isAbortError reason).
Qed.

End Logs.

Section Calls.

Implicit Types (c : call).

Lemma all_settled_spec c :
  all_settled c = true ↔
  ∀ i, i < length (promises c) → i ∈ (delivered c).*1.
Proof.
  unfold all_settled, has_settled. rewrite forallb_forall. split.
  - intros H i Hi. specialize (H i). rewrite bool_decide_eq_true in H.
    apply H, in_seq. lia.
  - intros H i Hi. apply in_seq in Hi. apply bool_decide_eq_true, H. lia.
Qed.

Lemma all_settled_length c :
  NoDup (delivered c).*1 →
  Forall (λ i, i < length (promises c)) (delivered c).*1 →
  all_settled c = true ↔ length (delivered c) = length (promises c).
Proof.
  intros Hnd Hb. rewrite all_settled_spec, (positions_full _ _ Hnd Hb).
  by rewrite length_fmap.
Qed.

Lemma pending_spec i c :
  pending i c = true ↔ i < length (promises c) ∧ i ∉ (delivered c).*1.
Proof.
  unfold pending, has_settled.
  rewrite andb_true_iff, Nat.ltb_lt, negb_true_iff, bool_decide_eq_false.
  done.
Qed.

Lemma signal_aborts_promises c : promises (signal_aborts c) = promises c.
Proof.
  unfold signal_aborts. destruct (aborted (signal c)); [done|]. simpl.
  destruct (abortListener c) eqn:E; [|done]. by case_bool_decide.
Qed.

Lemma signal_aborts_delivered c : delivered (signal_aborts c) = delivered c.
Proof.
  unfold signal_aborts. destruct (aborted (signal c)); [done|]. simpl.
  destruct (abortListener c) eqn:E; [|done]. by case_bool_decide.
Qed.

Lemma signal_aborts_abortListener c :
  abortListener (signal_aborts c) = abortListener c.
Proof.
  unfold signal_aborts. destruct (aborted (signal c)); [done|]. simpl.
  destruct (abortListener c) eqn:E; [|done]. by case_bool_decide.
Qed.

Lemma signal_aborts_listeners c :
  listeners (signal (signal_aborts c)) = listeners (signal c).
Proof.
  unfold signal_aborts. destruct (aborted (signal c)); [done|]. simpl.
  destruct (abortListener c) eqn:E; [|done]. by case_bool_decide.
Qed.

Lemma signal_aborts_executor_calls c :
  executor_calls (signal_aborts c) = executor_calls c.
Proof.
  unfold signal_aborts. destruct (aborted (signal c)); [done|]. simpl.
  destruct (abortListener c) eqn:E; [|done]. by case_bool_decide.
Qed.

End Calls.

Section CallInvariant.

Variable signal0 : AbortSignal.
Implicit Types (c : call).

Lemma call_inv_enter (executor : AbortSignal → list future) :
  call_inv signal0 (enter signal0 executor) 0.
Proof.
  assert (Hfin : finished (enter signal0 executor) = false).
  { unfold finished; simpl. by destruct (executor new_signal). }
  split; [done|done|constructor|constructor|done|].
  rewrite Hfin. simpl. unfold addEventListener.
  rewrite bool_decide_eq_false_2; [done|]. apply fresh_listener_fresh.
Qed.

Lemma call_inv_pending c k i :
  call_inv signal0 c k → pending i c = true →
  k < length (promises c) ∧ finished c = false.
Proof.
  intros [_ _ Hnd Hb -> _] [Hi Hni]%pending_spec.
  assert (Hlt : length (delivered c).*1 < length (promises c))
    by by apply (positions_fresh_lt _ i).
  rewrite length_fmap in Hlt. split; [done|].
  unfold finished. apply andb_false_intro2, Nat.eqb_neq. lia.
Qed.

Lemma call_inv_signal_aborts c k :
  call_inv signal0 c k → call_inv signal0 (signal_aborts c) k.
Proof.
  intros [H1 H2 H3 H4 H5 H6]. split.
  - by rewrite signal_aborts_executor_calls.
  - by rewrite signal_aborts_abortListener.
  - by rewrite signal_aborts_delivered.
  - by rewrite signal_aborts_delivered, signal_aborts_promises.
  - by rewrite signal_aborts_delivered.
  - rewrite signal_aborts_listeners, H6. unfold finished.
    by rewrite signal_aborts_delivered, signal_aborts_promises.
Qed.

(** One more settlement is delivered; on the last one the listener goes. *)
Lemma call_inv_settles c c' k i s :
  call_inv signal0 c k → pending i c = true →
  signal c' = signal c → executor_calls c' = executor_calls c →
  promises c' = promises c → abortListener c' = abortListener c →
  delivered c' = delivered c ++ [(i, s)] →
  call_inv signal0
    (if (k + 1 =? length (promises c))%nat then remove_abortListener c' else c')
    (k + 1).
Proof.
  intros Hinv Hp Hs He Hps Hl Hd.
  destruct (call_inv_pending _ _ _ Hinv Hp) as [Hk Hfin].
  destruct Hinv as [H1 H2 H3 H4 H5 H6].
  apply pending_spec in Hp as [Hi Hni].
  assert (Hnd' : NoDup (delivered c').*1).
  { rewrite Hd, fmap_app. simpl. apply NoDup_app. split; [done|].
    split; [|apply NoDup_singleton].
    intros x Hx ->%list_elem_of_singleton. done. }
  assert (Hb' : Forall (λ i, i < length (promises c')) (delivered c').*1).
  { rewrite Hd, Hps, fmap_app. apply Forall_app. split; [done|].
    by repeat constructor. }
  assert (Hlen : length (delivered c') = k + 1).
  { rewrite Hd, length_app. simpl. lia. }
  rewrite Hfin in H6.
  destruct (k + 1 =? length (promises c))%nat eqn:Hlast.
  - apply Nat.eqb_eq in Hlast. unfold remove_abortListener.
    rewrite Hl, H2. split; simpl; try congruence.
    unfold finished; simpl. rewrite Hps, Hlen, <- Hlast.
    replace (0 <? k + 1)%nat with true by (symmetry; apply Nat.ltb_lt; lia).
    rewrite Nat.eqb_refl. simpl. rewrite Hs, H6.
    apply filter_ne_fresh, fresh_listener_fresh.
  - apply Nat.eqb_neq in Hlast. split; try congruence.
    unfold finished. rewrite Hps, Hlen.
    rewrite (andb_false_intro2 _ (k + 1 =? _)%nat) by by apply Nat.eqb_neq.
    congruence.
Qed.

End CallInvariant.

Section AllInvariant.

Variable signal0 : AbortSignal.
Implicit Types (st : All.state).

(** [settled()] field by field. *)
Lemma all_settled_fields st :
  let last := (All.settledCount st + 1 =? length (promises (All.env st)))%nat in
  All.env (All.settled st) =
    (if last then remove_abortListener (All.env st) else All.env st)
  ∧ All.rejection (All.settled st) = All.rejection st
  ∧ All.results (All.settled st) = All.results st
  ∧ All.settledCount (All.settled st) = All.settledCount st + 1
  ∧ All.outcome (All.settled st) =
      (if last then
         match All.outcome st with
         | Some o => Some o
         | None => Some match All.rejection st with
                        | Some reason => Rejected reason
                        | None => Fulfilled (All.results st)
                        end
         end
       else All.outcome st).
Proof.
  unfold All.settled; simpl.
  destruct (All.settledCount st + 1 =? length (promises (All.env st)))%nat;
    [|done].
  unfold All.reject, All.resolve, All.settle_with; simpl.
  destruct (All.rejection st) eqn:Hr, (All.outcome st) eqn:Ho; simpl;
    by rewrite ?Hr, ?Ho.
Qed.

Lemma all_inv_init (executor : AbortSignal → list future) :
  aborted signal0 = false → all_inv signal0 (All.all signal0 executor).
Proof.
  intros Hna. unfold All.all. rewrite Hna.
  assert (Hfin : finished (enter signal0 executor) = false).
  { unfold finished; simpl. by destruct (executor new_signal). }
  split; simpl.
  - apply call_inv_enter.
  - done.
  - apply length_replicate.
  - intros i v. rewrite lookup_replicate. split; [by intros [[=] _]|].
    intros []%elem_of_nil.
  - by rewrite Hfin.
Qed.

Lemma all_inv_fulfilled st i v :
  all_inv signal0 st → pending i (All.env st) = true →
  all_inv signal0
    (All.onFulfilled i v
       (All.with_env (record_delivery i (Fulfilled v) (All.env st)) st)).
Proof.
  intros [Hc Hr Hlen Hres Hout] Hp.
  destruct (call_inv_pending _ _ _ _ Hc Hp) as [Hk Hfin].
  pose proof (call_inv_settles signal0 (All.env st)
    (record_delivery i (Fulfilled v) (All.env st)) _ i (Fulfilled v) Hc Hp
    eq_refl eq_refl eq_refl eq_refl eq_refl) as Hc'.
  apply pending_spec in Hp as [Hi Hni].
  unfold All.onFulfilled.
  set (st1 := All.with_results _ _).
  destruct (all_settled_fields st1) as (He & Hrj & Hrs & Hcnt & Ho).
  assert (Hset : All.results st1 = <[i := Some v]> (All.results st)).
  { subst st1; simpl. unfold array_set.
    by rewrite (proj2 (Nat.ltb_lt _ _)) by by rewrite Hlen. }
  assert (Henv : promises (All.env (All.settled st1)) = promises (All.env st)
               ∧ delivered (All.env (All.settled st1))
                 = delivered (All.env st) ++ [(i, Fulfilled v)]).
  { rewrite He. subst st1; simpl.
    destruct (_ =? _)%nat; [|done]. unfold remove_abortListener; simpl.
    by destruct (abortListener (All.env st)). }
  destruct Henv as [Hps Hd].
  split.
  - rewrite He, Hcnt. exact Hc'.
  - rewrite Hrj. unfold history. rewrite Hd, fmap_app. simpl.
    by rewrite all_choice_fulfilled.
  - by rewrite Hrs, Hset, length_insert, Hps.
  - intros j w. rewrite Hrs, Hset, Hd, elem_of_app, list_elem_of_singleton.
    destruct (decide (j = i)) as [->|Hne].
    + rewrite list_lookup_insert_eq by by rewrite Hlen. split.
      * intros [= ->]. by right.
      * intros [Hin|[= ->]]; [|done].
        exfalso. apply Hni. apply list_elem_of_fmap. by exists (i, Fulfilled w).
    + rewrite list_lookup_insert_ne by done. rewrite Hres.
      split; [by left|]. intros [?|[= ?]]; [done|congruence].
  - rewrite Ho, Hrj, Hrs.
    assert (Hfin' : finished (All.env (All.settled st1))
                    = (All.settledCount st + 1 =? length (promises (All.env st)))%nat).
    { unfold finished. rewrite Hps, Hd, length_app. simpl.
      destruct Hc as [_ _ _ _ -> _].
      replace (0 <? _)%nat with true by (symmetry; apply Nat.ltb_lt; lia).
      done. }
    rewrite Hfin'. subst st1; simpl. rewrite Hfin in Hout. by rewrite Hout.
Qed.

Lemma all_inv_rejected st i reason :
  all_inv signal0 st → pending i (All.env st) = true →
  all_inv signal0
    (All.onRejected reason
       (All.with_env (record_delivery i (Rejected reason) (All.env st)) st)).
Proof.
  intros [Hc Hr Hlen Hres Hout] Hp.
  destruct (call_inv_pending _ _ _ _ Hc Hp) as [Hk Hfin].
  pose proof (call_inv_settles signal0 (All.env st)
    (innerAbortController_abort
       (record_delivery i (Rejected reason) (All.env st)))
    _ i (Rejected reason) Hc Hp
    eq_refl eq_refl eq_refl eq_refl eq_refl) as Hc'.
  apply pending_spec in Hp as [Hi Hni].
  unfold All.onRejected.
  set (st1 := if All.replaces _ _ then _ else _).
  destruct (all_settled_fields st1) as (He & Hrj & Hrs & Hcnt & Ho).
  assert (H1 : All.env st1 = innerAbortController_abort
                 (record_delivery i (Rejected reason) (All.env st))
             ∧ All.results st1 = All.results st
             ∧ All.settledCount st1 = All.settledCount st
             ∧ All.outcome st1 = All.outcome st
             ∧ All.rejection st1 =
                 if All.replaces reason (All.rejection st)
                 then Some reason else All.rejection st).
  { subst st1; simpl. by destruct (All.replaces _ _). }
  destruct H1 as (He1 & Hrs1 & Hcnt1 & Ho1 & Hrj1).
  assert (Henv : promises (All.env (All.settled st1)) = promises (All.env st)
               ∧ delivered (All.env (All.settled st1))
                 = delivered (All.env st) ++ [(i, Rejected reason)]).
  { rewrite He, He1. simpl.
    match goal with |- context [if ?b then _ else _] => destruct b end;
      simpl; [|done].
    unfold remove_abortListener; simpl.
    by destruct (abortListener (All.env st)). }
  destruct Henv as [Hps Hd].
  split.
  - rewrite He, Hcnt, He1, Hcnt1. exact Hc'.
  - rewrite Hrj, Hrj1. unfold history. rewrite Hd, fmap_app. simpl.
    by rewrite all_choice_rejected, Hr.
  - by rewrite Hrs, Hrs1, Hps.
  - intros j w. rewrite Hrs, Hrs1, Hd, elem_of_app, list_elem_of_singleton.
    rewrite Hres. split; [by left|]. by intros [?|[=]].
  - rewrite Ho, Hrj, Hrs, He1, Hcnt1, Ho1. simpl.
    assert (Hfin' : finished (All.env (All.settled st1))
                    = (All.settledCount st + 1 =? length (promises (All.env st)))%nat).
    { unfold finished. rewrite Hps, Hd, length_app. simpl.
      destruct Hc as [_ _ _ _ -> _].
      replace (0 <? _)%nat with true by (symmetry; apply Nat.ltb_lt; lia).
      done. }
    rewrite Hfin'. rewrite Hfin in Hout. by rewrite Hout.
Qed.

Lemma all_inv_step st ev :
  all_inv signal0 st → all_inv signal0 (All.step st ev).
Proof.
  intros Hinv. destruct ev as [|i [v|reason]]; simpl.
  - destruct Hinv as [Hc Hr Hlen Hres Hout]. split; simpl.
    + by apply call_inv_signal_aborts.
    + unfold history. by rewrite signal_aborts_delivered.
    + by rewrite signal_aborts_promises.
    + intros i v. by rewrite signal_aborts_delivered.
    + unfold finished.
      by rewrite signal_aborts_delivered, signal_aborts_promises.
  - destruct (pending i (All.env st)) eqn:Hp; [|done].
    by apply all_inv_fulfilled.
  - destruct (pending i (All.env st)) eqn:Hp; [|done].
    by apply all_inv_rejected.
Qed.

Lemma all_inv_run st trace :
  all_inv signal0 st → all_inv signal0 (All.run st trace).
Proof.
  revert st. induction trace as [|ev trace IH]; intros st Hinv; [done|].
  simpl. by apply IH, all_inv_step.
Qed.

End AllInvariant.

Section RaceInvariant.

Variable signal0 : AbortSignal.
Implicit Types (st : Race.state).

(** [settled(result)] field by field. *)
Lemma race_settled_fields (r : option (settlement value)) st :
  let last := (Race.settledCount st + 1 =? length (promises (Race.env st)))%nat in
  Race.env (Race.settled r st) =
    (if last
     then remove_abortListener (innerAbortController_abort (Race.env st))
     else innerAbortController_abort (Race.env st))
  ∧ Race.result (Race.settled r st) = Race.result st
  ∧ Race.settledCount (Race.settled r st) = Race.settledCount st + 1
  ∧ Race.outcome (Race.settled r st) =
      (if last then
         match Race.outcome st with
         | Some o => Some o
         | None => r
         end
       else Race.outcome st).
Proof.
  unfold Race.settled; simpl.
  destruct (Race.settledCount st + 1 =? length (promises (Race.env st)))%nat;
    [|done].
  unfold Race.reject, Race.resolve, Race.settle_with; simpl.
  destruct r as [[v|reason]|], (Race.outcome st) eqn:Ho; simpl;
    by rewrite ?Ho.
Qed.

Lemma race_inv_init (executor : AbortSignal → list future) :
  aborted signal0 = false → race_inv signal0 (Race.race signal0 executor).
Proof.
  intros Hna. unfold Race.race. rewrite Hna.
  assert (Hfin : finished (enter signal0 executor) = false).
  { unfold finished; simpl. by destruct (executor new_signal). }
  split; simpl; [apply call_inv_enter|done|by rewrite Hfin].
Qed.

(** Both callbacks: [st1] is the state after the assignment to [result]. *)
Lemma race_inv_settles st st1 i s :
  race_inv signal0 st → pending i (Race.env st) = true →
  Race.env st1 = record_delivery i s (Race.env st) →
  Race.settledCount st1 = Race.settledCount st →
  Race.outcome st1 = Race.outcome st →
  Race.result st1 = race_choice (history (Race.env st) ++ [s]) →
  race_inv signal0 (Race.settled (Race.result st1) st1).
Proof.
  intros [Hc Hr Hout] Hp He1 Hcnt1 Ho1 Hr1.
  destruct (call_inv_pending _ _ _ _ Hc Hp) as [Hk Hfin].
  pose proof (call_inv_settles signal0 (Race.env st)
    (innerAbortController_abort (record_delivery i s (Race.env st)))
    _ i s Hc Hp eq_refl eq_refl eq_refl eq_refl eq_refl) as Hc'.
  destruct (race_settled_fields (Race.result st1) st1) as (He & Hrs & Hcnt & Ho).
  assert (Henv : promises (Race.env (Race.settled (Race.result st1) st1))
                 = promises (Race.env st)
               ∧ delivered (Race.env (Race.settled (Race.result st1) st1))
                 = delivered (Race.env st) ++ [(i, s)]).
  { rewrite He, He1. simpl.
    match goal with |- context [if ?b then _ else _] => destruct b end;
      simpl; [|done].
    unfold remove_abortListener; simpl.
    by destruct (abortListener (Race.env st)). }
  destruct Henv as [Hps Hd].
  split.
  - rewrite He, Hcnt, He1, Hcnt1. exact Hc'.
  - rewrite Hrs. unfold history. rewrite Hd, fmap_app. exact Hr1.
  - rewrite Ho, Hrs, He1, Hcnt1, Ho1. simpl.
    assert (Hfin' : finished (Race.env (Race.settled (Race.result st1) st1))
                    = (Race.settledCount st + 1 =? length (promises (Race.env st)))%nat).
    { unfold finished. rewrite Hps, Hd, length_app. simpl.
      destruct Hc as [_ _ _ _ -> _].
      replace (0 <? _)%nat with true by (symmetry; apply Nat.ltb_lt; lia).
      done. }
    rewrite Hfin'. rewrite Hfin in Hout. by rewrite Hout.
Qed.

Lemma race_inv_step st ev :
  race_inv signal0 st → race_inv signal0 (Race.step st ev).
Proof.
  intros Hinv. destruct ev as [|i [v|reason]]; simpl.
  - destruct Hinv as [Hc Hr Hout]. split; simpl.
    + by apply call_inv_signal_aborts.
    + unfold history. by rewrite signal_aborts_delivered.
    + unfold finished.
      by rewrite signal_aborts_delivered, signal_aborts_promises.
  - destruct (pending i (Race.env st)) eqn:Hp; [|done].
    unfold Race.onFulfilled.
    apply (race_inv_settles st _ i (Fulfilled v) Hinv Hp).
    + simpl. by destruct (Race.result st).
    + simpl. by destruct (Race.result st).
    + simpl. by destruct (Race.result st).
    + rewrite race_choice_fulfilled, <- (race_result _ _ Hinv). simpl.
      by destruct (Race.result st) eqn:E.
  - destruct (pending i (Race.env st)) eqn:Hp; [|done].
    unfold Race.onRejected.
    apply (race_inv_settles st _ i (Rejected reason) Hinv Hp).
    + simpl. by destruct (Race.replaces _ _).
    + simpl. by destruct (Race.replaces _ _).
    + simpl. by destruct (Race.replaces _ _).
    + rewrite race_choice_rejected, <- (race_result _ _ Hinv). simpl.
      by destruct (Race.replaces _ _).
Qed.

Lemma race_inv_run st trace :
  race_inv signal0 st → race_inv signal0 (Race.run st trace).
Proof.
  revert st. induction trace as [|ev trace IH]; intros st Hinv; [done|].
  simpl. by apply IH, race_inv_step.
Qed.

End RaceInvariant.

Section Frames.

Lemma remove_abortListener_promises (c : call) :
  promises (remove_abortListener c) = promises c.
Proof. unfold remove_abortListener. by destruct (abortListener c). Qed.

Lemma all_step_promises (st : All.state) (ev : event) :
  promises (All.env (All.step st ev)) = promises (All.env st).
Proof.
  destruct ev as [|i [v|reason]]; simpl.
  - apply signal_aborts_promises.
  - destruct (pending i (All.env st)); [|done]. unfold All.onFulfilled.
    rewrite (proj1 (all_settled_fields _)).
    destruct (_ =? _)%nat; [by rewrite remove_abortListener_promises|done].
  - destruct (pending i (All.env st)); [|done]. unfold All.onRejected.
    match goal with |- context [if ?b then _ else _] => destruct b end.
    all: rewrite (proj1 (all_settled_fields _)).
    all: match goal with |- context [if ?b then _ else _] => destruct b end.
    all: by rewrite ?remove_abortListener_promises.
Qed.

Lemma all_run_promises (st : All.state) (trace : list event) :
  promises (All.env (All.run st trace)) = promises (All.env st).
Proof.
  revert st. induction trace as [|ev trace IH]; intros st; [done|].
  simpl. by rewrite IH, all_step_promises.
Qed.

Lemma race_step_promises (st : Race.state) (ev : event) :
  promises (Race.env (Race.step st ev)) = promises (Race.env st).
Proof.
  destruct ev as [|i [v|reason]]; simpl.
  - apply signal_aborts_promises.
  - destruct (pending i (Race.env st)); [|done]. unfold Race.onFulfilled.
    rewrite (proj1 (race_settled_fields _ _)).
    match goal with |- context [if ?b then _ else _] => destruct b end;
      rewrite ?remove_abortListener_promises; simpl;
      by destruct (Race.result st) eqn:E.
  - destruct (pending i (Race.env st)); [|done]. unfold Race.onRejected.
    match goal with |- context [if ?b then _ else _] => destruct b end.
    all: rewrite (proj1 (race_settled_fields _ _)).
    all: match goal with |- context [if ?b then _ else _] => destruct b end.
    all: by rewrite ?remove_abortListener_promises.
Qed.

Lemma race_run_promises (st : Race.state) (trace : list event) :
  promises (Race.env (Race.run st trace)) = promises (Race.env st).
Proof.
  revert st. induction trace as [|ev trace IH]; intros st; [done|].
  simpl. by rewrite IH, race_step_promises.
Qed.

(** A call left at entry ignores every event. *)
Lemma all_left_at_entry_step (st : All.state) (ev : event) :
  aborted (signal (All.env st)) = true → promises (All.env st) = [] →
  All.step st ev = st.
Proof.
  intros Ha Hp. destruct st as [c r rs k o]; simpl in *.
  destruct ev as [|i s]; simpl.
  - unfold signal_aborts. by rewrite Ha.
  - unfold pending. rewrite Hp. done.
Qed.

Lemma race_left_at_entry_step (st : Race.state) (ev : event) :
  aborted (signal (Race.env st)) = true → promises (Race.env st) = [] →
  Race.step st ev = st.
Proof.
  intros Ha Hp. destruct st as [c k r o]; simpl in *.
  destruct ev as [|i s]; simpl.
  - unfold signal_aborts. by rewrite Ha.
  - unfold pending. rewrite Hp. done.
Qed.

Lemma finished_all_settled (signal0 : AbortSignal) (c : call) (k : nat) :
  call_inv signal0 c k →
  all_settled c = true ↔ finished c = true ∨ promises c = [].
Proof.
  intros [_ _ Hnd Hb _ _]. rewrite (all_settled_length _ Hnd Hb).
  unfold finished. rewrite andb_true_iff, Nat.ltb_lt, Nat.eqb_eq. split.
  - intros Hlen. destruct (promises c); [by right|left]. simpl in *. lia.
  - intros [[_ ?]|Hnil]; [done|]. rewrite Hnil in *.
    destruct (delivered c) as [|[i s] l]; [done|].
    apply Forall_cons in Hb as [Hi _]. simpl in Hi. lia.
Qed.

Lemma first_genuine_existsb (log : list (settlement value)) :
  existsb is_genuine log = true → is_Some (first_genuine log).
Proof.
  induction log as [|[v|r] log IH]; simpl; [done|done|].
  destruct (isAbortError r); simpl; [done|by eexists].
Qed.

End Frames.

(* ===================================================================== *)
(** ** AbortError.js: classification and the throwing helpers *)
(* ===================================================================== *)

(** C8.  [isAbortError] decides by shape alone: it answers [true] exactly on
    the values whose [typeof] is ['object'], that are not [null], and whose
    [name] is the string ['AbortError'], and [false] on every other value.
    The constructor that built an object plays no part, so an [AbortError]
    made by the class of another realm is recognised although [instanceof]
    against this realm's class rejects it. *)
Theorem isAbortError_by_shape :
  (∀ v, isAbortError v = true ↔
        typeof v = "object"%string ∧ v ≠ VNull
        ∧ get v "name" = VString "AbortError")
  ∧ (∀ v, isAbortError v = false ↔
          ¬ (typeof v = "object"%string ∧ v ≠ VNull
             ∧ get v "name" = VString "AbortError"))
  ∧ (∀ c c' props,
        isAbortError (VObject c props) = isAbortError (VObject c' props))
  ∧ (∀ r, isAbortError (new_AbortError_in r) = true
          ∧ instanceof (new_AbortError_in r) (AbortError this_realm)
            = bool_decide (r = this_realm)).
Proof.
  assert (Hshape : ∀ v, isAbortError v = true ↔
            typeof v = "object"%string ∧ v ≠ VNull
            ∧ get v "name" = VString "AbortError").
  { intros v. destruct v as [| |b|n|s|id|props|c props];
      try (split; [discriminate|intros (Ht & _ & _); discriminate]).
    - split; [discriminate|]. by intros (_ & Hn & _).
    - unfold isAbortError; simpl.
      destruct (lookup_prop "name" props) as [| |b|n|s|id|ps|c' ps]; simpl;
        try (split; [discriminate|intros (_ & _ & Hg); discriminate]).
      rewrite String.eqb_eq. split.
      + by intros ->.
      + by intros (_ & _ & [= ->]). }
  split; [exact Hshape|]. split; [|split].
  - intros v. rewrite <- Hshape. by destruct (isAbortError v).
  - done.
  - intros r. split; [done|]. unfold new_AbortError_in, instanceof, AbortError.
    apply bool_decide_ext. split; [by intros [= ->]|by intros ->].
Qed.

(** C9.  [throwIfAborted(signal)] throws a cancellation error exactly when
    the signal is aborted, and returns normally exactly when it is not.  The
    function only reads the signal. *)
Theorem throwIfAborted_iff (signal : AbortSignal) :
  (aborted signal = true ↔
   ∃ e, throwIfAborted signal = Throw e ∧ isAbortError e = true)
  ∧ (aborted signal = false ↔ throwIfAborted signal = Normal tt).
Proof.
  unfold throwIfAborted. destruct (aborted signal); split; split;
    try done; try discriminate.
  - intros _. by exists new_AbortError.
  - by intros (e & [=] & _).
Qed.

(** C10.  [catchAbortError(e)] returns normally exactly when [e] is a
    cancellation error and throws [e] itself exactly when it is not;
    [rethrowAbortError(e)] throws [e] itself exactly when [e] is a
    cancellation error and returns normally exactly when it is not. *)
Theorem catch_and_rethrow_iff (e : value) :
  (catchAbortError e = Normal tt ↔ isAbortError e = true)
  ∧ (catchAbortError e = Throw e ↔ isAbortError e = false)
  ∧ (rethrowAbortError e = Throw e ↔ isAbortError e = true)
  ∧ (rethrowAbortError e = Normal tt ↔ isAbortError e = false).
Proof.
  unfold catchAbortError, rethrowAbortError.
  destruct (isAbortError e); repeat split; done || discriminate.
Qed.

(* ===================================================================== *)
(** ** Runs on the sample inputs *)
(* ===================================================================== *)

Example all_out_of_order :
  All.outcome (All.exec Sample.outer Sample.three Sample.out_of_order)
  = Some (Fulfilled [Some (VNumber 3); Some (VNumber 1); Some (VNumber 2)]).
Proof. reflexivity. Qed.

Example all_one_fails :
  All.outcome (All.exec Sample.outer Sample.three Sample.one_fails)
  = Some (Rejected Sample.boom).
Proof. reflexivity. Qed.

Example all_pending_before_last :
  All.outcome (All.exec Sample.outer Sample.three (take 2 Sample.one_fails))
  = None.
Proof. reflexivity. Qed.

Example race_fulfilled_then_fails :
  Race.outcome (Race.exec Sample.outer Sample.two Sample.fulfilled_then_fails)
  = Some (Rejected Sample.boom).
Proof. reflexivity. Qed.

Example race_listeners_restored :
  listeners (signal (Race.env
    (Race.exec Sample.outer Sample.two Sample.fulfilled_then_fails))) = [7].
Proof. reflexivity. Qed.

Example all_inner_aborted_by_outer :
  innerAbortController (All.env (All.exec Sample.outer Sample.three [SignalAborts]))
  = Some {| aborted := true; listeners := [] |}.
Proof. reflexivity. Qed.

(* ===================================================================== *)
(** ** The delivered settlements are those of the trace *)
(* ===================================================================== *)

Section Delivered.

Lemma remove_abortListener_delivered (c : call) :
  delivered (remove_abortListener c) = delivered c.
Proof. unfold remove_abortListener. by destruct (abortListener c). Qed.

Lemma all_step_delivered (st : All.state) (ev : event) :
  delivered (All.env (All.step st ev)) =
  match ev with
  | SignalAborts => delivered (All.env st)
  | Settles i s =>
      if pending i (All.env st) then delivered (All.env st) ++ [(i, s)]
      else delivered (All.env st)
  end.
Proof.
  destruct ev as [|i [v|reason]]; simpl.
  - apply signal_aborts_delivered.
  - destruct (pending i (All.env st)); [|done]. unfold All.onFulfilled.
    rewrite (proj1 (all_settled_fields _)).
    destruct (_ =? _)%nat; by rewrite ?remove_abortListener_delivered.
  - destruct (pending i (All.env st)); [|done]. unfold All.onRejected.
    match goal with |- context [if ?b then _ else _] => destruct b end.
    all: rewrite (proj1 (all_settled_fields _)).
    all: match goal with |- context [if ?b then _ else _] => destruct b end.
    all: by rewrite ?remove_abortListener_delivered.
Qed.

Lemma race_step_delivered (st : Race.state) (ev : event) :
  delivered (Race.env (Race.step st ev)) =
  match ev with
  | SignalAborts => delivered (Race.env st)
  | Settles i s =>
      if pending i (Race.env st) then delivered (Race.env st) ++ [(i, s)]
      else delivered (Race.env st)
  end.
Proof.
  destruct ev as [|i [v|reason]]; simpl.
  - apply signal_aborts_delivered.
  - destruct (pending i (Race.env st)); [|done]. unfold Race.onFulfilled.
    rewrite (proj1 (race_settled_fields _ _)).
    match goal with |- context [if ?b then _ else _] => destruct b end;
      rewrite ?remove_abortListener_delivered; simpl;
      by destruct (Race.result st) eqn:E.
  - destruct (pending i (Race.env st)); [|done]. unfold Race.onRejected.
    match goal with |- context [if ?b then _ else _] => destruct b end.
    all: rewrite (proj1 (race_settled_fields _ _)).
    all: match goal with |- context [if ?b then _ else _] => destruct b end.
    all: by rewrite ?remove_abortListener_delivered.
Qed.

(** A trace in which every position below the number of promises settles at
    most once is delivered as it stands. *)
Lemma all_run_delivered (st : All.state) (trace : list event) :
  NoDup ((delivered (All.env st)).*1 ++ (settle_events trace).*1) →
  Forall (λ i, i < length (promises (All.env st))) (settle_events trace).*1 →
  delivered (All.env (All.run st trace))
  = delivered (All.env st) ++ settle_events trace.
Proof.
  revert st. induction trace as [|[|i s] trace IH]; intros st Hnd Hb.
  - simpl. by rewrite app_nil_r.
  - simpl. rewrite IH; simpl;
      by rewrite ?signal_aborts_delivered, ?signal_aborts_promises.
  - change (All.run st (Settles i s :: trace))
      with (All.run (All.step st (Settles i s)) trace).
    change (settle_events (Settles i s :: trace))
      with ((i, s) :: settle_events trace) in *.
    rewrite fmap_cons in Hnd, Hb. apply Forall_cons in Hb as [Hi Hb].
    assert (Hp : pending i (All.env st) = true).
    { apply pending_spec. split; [done|].
      apply NoDup_app in Hnd as (_ & Hd & _). intros Hin.
      apply (Hd _ Hin). by left. }
    pose proof (all_step_delivered st (Settles i s)) as Hstep.
    cbv beta iota in Hstep. rewrite Hp in Hstep. rewrite IH.
    + by rewrite Hstep, <- app_assoc.
    + rewrite Hstep, fmap_app, <- app_assoc. done.
    + by rewrite all_step_promises.
Qed.

Lemma race_run_delivered (st : Race.state) (trace : list event) :
  NoDup ((delivered (Race.env st)).*1 ++ (settle_events trace).*1) →
  Forall (λ i, i < length (promises (Race.env st))) (settle_events trace).*1 →
  delivered (Race.env (Race.run st trace))
  = delivered (Race.env st) ++ settle_events trace.
Proof.
  revert st. induction trace as [|[|i s] trace IH]; intros st Hnd Hb.
  - simpl. by rewrite app_nil_r.
  - simpl. rewrite IH; simpl;
      by rewrite ?signal_aborts_delivered, ?signal_aborts_promises.
  - change (Race.run st (Settles i s :: trace))
      with (Race.run (Race.step st (Settles i s)) trace).
    change (settle_events (Settles i s :: trace))
      with ((i, s) :: settle_events trace) in *.
    rewrite fmap_cons in Hnd, Hb. apply Forall_cons in Hb as [Hi Hb].
    assert (Hp : pending i (Race.env st) = true).
    { apply pending_spec. split; [done|].
      apply NoDup_app in Hnd as (_ & Hd & _). intros Hin.
      apply (Hd _ Hin). by left. }
    pose proof (race_step_delivered st (Settles i s)) as Hstep.
    cbv beta iota in Hstep. rewrite Hp in Hstep. rewrite IH.
    + by rewrite Hstep, <- app_assoc.
    + rewrite Hstep, fmap_app, <- app_assoc. done.
    + by rewrite race_step_promises.
Qed.

End Delivered.

(* ===================================================================== *)
(** ** all.js and race.js: what a call delivers, and when *)
(* ===================================================================== *)

Section Entered.

Variables (signal0 : AbortSignal) (executor : AbortSignal → list future).
Hypothesis not_aborted : aborted signal0 = false.

Lemma all_exec_inv trace : all_inv signal0 (All.exec signal0 executor trace).
Proof. by apply all_inv_run, all_inv_init. Qed.

Lemma race_exec_inv trace : race_inv signal0 (Race.exec signal0 executor trace).
Proof. by apply race_inv_run, race_inv_init. Qed.

Lemma all_exec_promises trace :
  promises (All.env (All.exec signal0 executor trace)) = executor new_signal.
Proof.
  unfold All.exec. rewrite all_run_promises. unfold All.all.
  by rewrite not_aborted.
Qed.

Lemma race_exec_promises trace :
  promises (Race.env (Race.exec signal0 executor trace)) = executor new_signal.
Proof.
  unfold Race.exec. rewrite race_run_promises. unfold Race.race.
  by rewrite not_aborted.
Qed.

(** When every position settles at most once, the settlements delivered
    to the call are the settlements of the trace, in its order. *)
Lemma all_exec_delivered trace :
  NoDup (settle_events trace).*1 →
  Forall (λ i, i < length (executor new_signal)) (settle_events trace).*1 →
  delivered (All.env (All.exec signal0 executor trace)) = settle_events trace.
Proof.
  intros Hnd Hb. unfold All.exec. rewrite all_run_delivered.
  - unfold All.all. by rewrite not_aborted.
  - unfold All.all. by rewrite not_aborted.
  - unfold All.all. by rewrite not_aborted.
Qed.

Lemma race_exec_delivered trace :
  NoDup (settle_events trace).*1 →
  Forall (λ i, i < length (executor new_signal)) (settle_events trace).*1 →
  delivered (Race.env (Race.exec signal0 executor trace)) = settle_events trace.
Proof.
  intros Hnd Hb. unfold Race.exec. rewrite race_run_delivered.
  - unfold Race.race. by rewrite not_aborted.
  - unfold Race.race. by rewrite not_aborted.
  - unfold Race.race. by rewrite not_aborted.
Qed.

(** Whatever the trace (repeated or stray settlements included), the
    positions that have settled are the positions of the sequence that the
    trace settles. *)
Lemma all_run_positions (st : All.state) (trace' : list event) (i : nat) :
  i ∈ (delivered (All.env (All.run st trace'))).*1 ↔
  i ∈ (delivered (All.env st)).*1
  ∨ (i < length (promises (All.env st)) ∧ i ∈ (settle_events trace').*1).
Proof.
  revert st. induction trace' as [|[|j s] trace' IH]; intros st.
  - simpl. split; [by left|]. intros [?|[_ []%elem_of_nil]]. done.
  - change (All.run st (SignalAborts :: trace'))
      with (All.run (All.step st SignalAborts) trace').
    rewrite IH, all_step_delivered, all_step_promises. done.
  - change (All.run st (Settles j s :: trace'))
      with (All.run (All.step st (Settles j s)) trace').
    change (settle_events (Settles j s :: trace'))
      with ((j, s) :: settle_events trace').
    rewrite IH, all_step_delivered, all_step_promises, fmap_cons, elem_of_cons.
    simpl. destruct (pending j (All.env st)) eqn:Hp.
    + apply pending_spec in Hp as [Hj Hnj].
      rewrite fmap_app, elem_of_app. simpl. rewrite list_elem_of_singleton.
      split; [intros [[?| ->]|[? ?]]|intros [?|[? [->|?]]]]; eauto.
    + assert (Hnp : ¬ (j < length (promises (All.env st))
                       ∧ j ∉ (delivered (All.env st)).*1)).
      { rewrite <- pending_spec. by rewrite Hp. }
      split; [intros [?|[? ?]]; eauto|].
      intros [?|[Hi [->|?]]]; eauto.
      left. destruct (decide (j ∈ (delivered (All.env st)).*1)); [done|].
      exfalso. by apply Hnp.
Qed.

Lemma race_run_positions (st : Race.state) (trace' : list event) (i : nat) :
  i ∈ (delivered (Race.env (Race.run st trace'))).*1 ↔
  i ∈ (delivered (Race.env st)).*1
  ∨ (i < length (promises (Race.env st)) ∧ i ∈ (settle_events trace').*1).
Proof.
  revert st. induction trace' as [|[|j s] trace' IH]; intros st.
  - simpl. split; [by left|]. intros [?|[_ []%elem_of_nil]]. done.
  - change (Race.run st (SignalAborts :: trace'))
      with (Race.run (Race.step st SignalAborts) trace').
    rewrite IH, race_step_delivered, race_step_promises. done.
  - change (Race.run st (Settles j s :: trace'))
      with (Race.run (Race.step st (Settles j s)) trace').
    change (settle_events (Settles j s :: trace'))
      with ((j, s) :: settle_events trace').
    rewrite IH, race_step_delivered, race_step_promises, fmap_cons, elem_of_cons.
    simpl. destruct (pending j (Race.env st)) eqn:Hp.
    + apply pending_spec in Hp as [Hj Hnj].
      rewrite fmap_app, elem_of_app. simpl. rewrite list_elem_of_singleton.
      split; [intros [[?| ->]|[? ?]]|intros [?|[? [->|?]]]]; eauto.
    + assert (Hnp : ¬ (j < length (promises (Race.env st))
                       ∧ j ∉ (delivered (Race.env st)).*1)).
      { rewrite <- pending_spec. by rewrite Hp. }
      split; [intros [?|[? ?]]; eauto|].
      intros [?|[Hi [->|?]]]; eauto.
      left. destruct (decide (j ∈ (delivered (Race.env st)).*1)); [done|].
      exfalso. by apply Hnp.
Qed.

(** "Every promise of the executor has settled" is a fact about the trace:
    it settles every position of the sequence the executor returned. *)
Lemma all_settled_trace trace :
  all_settled (All.env (All.exec signal0 executor trace))
  = settles_all (length (executor new_signal)) trace.
Proof.
  apply eq_true_iff_eq. rewrite all_settled_spec, all_exec_promises.
  unfold settles_all. rewrite forallb_forall. unfold All.exec.
  assert (Hd : delivered (All.env (All.all signal0 executor)) = []
             ∧ promises (All.env (All.all signal0 executor))
               = executor new_signal).
  { unfold All.all. by rewrite not_aborted. }
  destruct Hd as [Hd Hp]. split.
  - intros H i Hi%in_seq. apply bool_decide_eq_true.
    assert (Hlt : i < length (executor new_signal)) by lia.
    apply H, all_run_positions in Hlt as [Hin|[_ Hin]]; [|done].
    rewrite Hd in Hin. by apply elem_of_nil in Hin.
  - intros H i Hi. apply all_run_positions. right. rewrite Hp.
    split; [done|]. specialize (H i). rewrite bool_decide_eq_true in H.
    apply H, in_seq. lia.
Qed.

Lemma race_settled_trace trace :
  all_settled (Race.env (Race.exec signal0 executor trace))
  = settles_all (length (executor new_signal)) trace.
Proof.
  apply eq_true_iff_eq. rewrite all_settled_spec, race_exec_promises.
  unfold settles_all. rewrite forallb_forall. unfold Race.exec.
  assert (Hd : delivered (Race.env (Race.race signal0 executor)) = []
             ∧ promises (Race.env (Race.race signal0 executor))
               = executor new_signal).
  { unfold Race.race. by rewrite not_aborted. }
  destruct Hd as [Hd Hp]. split.
  - intros H i Hi%in_seq. apply bool_decide_eq_true.
    assert (Hlt : i < length (executor new_signal)) by lia.
    apply H, race_run_positions in Hlt as [Hin|[_ Hin]]; [|done].
    rewrite Hd in Hin. by apply elem_of_nil in Hin.
  - intros H i Hi. apply race_run_positions. right. rewrite Hp.
    split; [done|]. specialize (H i). rewrite bool_decide_eq_true in H.
    apply H, in_seq. lia.
Qed.

(** With at least one promise, "all settled" and [finished] coincide. *)
Lemma entered_finished (c : call) (k : nat) :
  call_inv signal0 c k → 0 < length (promises c) →
  finished c = all_settled c.
Proof.
  intros Hc Hn. pose proof (finished_all_settled _ _ _ Hc) as H.
  destruct (all_settled c), (finished c); try done.
  - destruct (proj1 H eq_refl) as [?|Hnil]; [done|].
    rewrite Hnil in Hn. simpl in Hn. lia.
  - symmetry. apply H. by left.
Qed.

Lemma entered_listening (c : call) (k : nat) :
  call_inv signal0 c k → listening c = negb (finished c).
Proof.
  intros [_ Hl _ _ _ Hls]. unfold listening. rewrite Hl, Hls.
  destruct (finished c); simpl.
  - apply bool_decide_eq_false, fresh_listener_fresh.
  - apply bool_decide_eq_true, elem_of_app. right. by left.
Qed.

End Entered.

(** C1.  In [all], the rejection callback assigns [rejection] exactly when
    no failure is recorded yet, or the new reason is a genuine error and
    the recorded one a cancellation error; otherwise the recorded failure
    stays.  Consequently, once all promises have settled and at least one of
    them rejected with a genuine error (whatever the others did, so also
    when they all rejected with [AbortError]), the returned promise rejects
    with the first genuine error delivered, which is not a cancellation
    error. *)
Theorem all_genuine_error_wins
    (signal0 : AbortSignal) (executor : AbortSignal → list future)
    (trace : list event) :
  aborted signal0 = false →
  all_settled (All.env (All.exec signal0 executor trace)) = true →
  existsb is_genuine (history (All.env (All.exec signal0 executor trace))) = true →
  (∀ st reason,
     All.rejection (All.onRejected reason st) =
     match All.rejection st with
     | None => Some reason
     | Some current =>
         if negb (isAbortError reason) && isAbortError current
         then Some reason else Some current
     end)
  ∧ ∃ reason,
      first_genuine (history (All.env (All.exec signal0 executor trace)))
        = Some reason
      ∧ isAbortError reason = false
      ∧ All.outcome (All.exec signal0 executor trace) = Some (Rejected reason).
Proof.
  intros Hna Hall Hex. split.
  - intros st reason. unfold All.onRejected.
    rewrite (proj1 (proj2 (all_settled_fields _))). simpl.
    destruct (All.rejection st) as [current|] eqn:Hr; simpl; [|by rewrite ?Hr].
    destruct (negb (isAbortError reason) && isAbortError current); simpl;
      by rewrite ?Hr.
  - destruct (all_exec_inv signal0 executor Hna trace) as [Hc Hr _ _ Ho].
    destruct (first_genuine_existsb _ Hex) as [reason Hg].
    exists reason. split; [done|].
    split; [by apply first_genuine_Some in Hg as [? _]|].
    assert (Hn : 0 < length (promises (All.env (All.exec signal0 executor trace)))).
    { destruct Hc as [_ _ _ Hb _ _]. unfold history in Hex.
      destruct (delivered _) as [|[i s] l]; [done|].
      apply Forall_cons in Hb as [Hi _]. simpl in Hi. lia. }
    rewrite (entered_finished _ _ _ Hc Hn), Hall in Ho.
    rewrite Ho, Hr. unfold all_choice. by rewrite Hg.
Qed.

Lemma all_genuine_error_wins_witness :
  aborted Sample.outer = false
  ∧ all_settled (All.env (All.exec Sample.outer Sample.three Sample.one_fails))
    = true
  ∧ existsb is_genuine
      (history (All.env (All.exec Sample.outer Sample.three Sample.one_fails)))
    = true
  ∧ ∃ reason,
      first_genuine
        (history (All.env (All.exec Sample.outer Sample.three Sample.one_fails)))
        = Some reason
      ∧ isAbortError reason = false
      ∧ All.outcome (All.exec Sample.outer Sample.three Sample.one_fails)
        = Some (Rejected reason).
Proof.
  split; [reflexivity|]. split; [reflexivity|]. split; [reflexivity|].
  apply (all_genuine_error_wins Sample.outer Sample.three Sample.one_fails);
    reflexivity.
Defined.

(** C2, as the code has it.  Once every promise has settled, [race] settles
    with the first genuine rejection delivered, if there is one; absent any
    genuine rejection it settles with the first settlement delivered,
    whether that is a fulfilment or a cancellation rejection. *)
Theorem race_outcome_first_genuine_else_first
    (signal0 : AbortSignal) (executor : AbortSignal → list future)
    (trace : list event) :
  aborted signal0 = false →
  all_settled (Race.env (Race.exec signal0 executor trace)) = true →
  Race.outcome (Race.exec signal0 executor trace)
  = match first_genuine (history (Race.env (Race.exec signal0 executor trace))) with
    | Some reason => Some (Rejected reason)
    | None => head (history (Race.env (Race.exec signal0 executor trace)))
    end.
Proof.
  intros Hna Hall.
  destruct (race_exec_inv signal0 executor Hna trace) as [Hc Hr Ho].
  fold (race_choice (history (Race.env (Race.exec signal0 executor trace)))).
  rewrite Ho, Hr.
  destruct (finished _) eqn:Hfin; [done|].
  apply (finished_all_settled _ _ _ Hc) in Hall as [Hf|Hnil]; [congruence|].
  destruct Hc as [_ _ _ Hb _ _]. rewrite Hnil in Hb. unfold history.
  destruct (delivered _) as [|[i s] l]; [done|].
  apply Forall_cons in Hb as [Hi _]. simpl in Hi. lia.
Qed.

Lemma race_outcome_first_genuine_else_first_witness :
  aborted Sample.outer = false
  ∧ all_settled
      (Race.env (Race.exec Sample.outer Sample.two Sample.fulfilled_then_fails))
    = true
  ∧ Race.outcome (Race.exec Sample.outer Sample.two Sample.fulfilled_then_fails)
    = Some (Rejected Sample.boom).
Proof.
  split; [reflexivity|]. split; [reflexivity|].
  rewrite (race_outcome_first_genuine_else_first
             Sample.outer Sample.two Sample.fulfilled_then_fails);
    reflexivity.
Defined.

(** C2, as stated, fails: the outer signal aborts, the first promise rejects
    with the cancellation error and the second one still fulfils.  No
    genuine rejection was delivered and a fulfilment was, so the stated rule
    picks the fulfilment; the call rejects with the cancellation error. *)
Lemma race_cancellation_before_fulfilment :
  all_settled
    (Race.env (Race.exec Sample.outer Sample.two Sample.cancelled_then_fulfilled))
  = true
  ∧ race_priority_rule
      (history
         (Race.env
            (Race.exec Sample.outer Sample.two Sample.cancelled_then_fulfilled)))
    = Some (Fulfilled (VNumber 1))
  ∧ Race.outcome
      (Race.exec Sample.outer Sample.two Sample.cancelled_then_fulfilled)
    = Some (Rejected new_AbortError)
  ∧ Race.outcome
      (Race.exec Sample.outer Sample.two Sample.cancelled_then_fulfilled)
    ≠ race_priority_rule
        (history
           (Race.env
              (Race.exec Sample.outer Sample.two Sample.cancelled_then_fulfilled))).
Proof. repeat split; try reflexivity. discriminate. Qed.

(** C3.  When the executor returned at least one promise, the promise
    returned by [all], and the one returned by [race], is settled exactly
    after the traces that settle every position of the sequence the
    executor returned: it is still pending after any events that leave one
    of these promises unsettled, and it is settled as soon as the last of
    them has settled. *)
Theorem result_exactly_when_last_settles
    (signal0 : AbortSignal) (executor : AbortSignal → list future)
    (trace : list event) :
  aborted signal0 = false →
  0 < length (executor new_signal) →
  (is_Some (All.outcome (All.exec signal0 executor trace)) ↔
   settles_all (length (executor new_signal)) trace = true)
  ∧ (is_Some (Race.outcome (Race.exec signal0 executor trace)) ↔
     settles_all (length (executor new_signal)) trace = true).
Proof.
  intros Hna Hn. split.
  - rewrite <- (all_settled_trace signal0 executor Hna).
    destruct (all_exec_inv signal0 executor Hna trace) as [Hc _ _ _ Ho].
    rewrite <- (entered_finished _ _ _ Hc)
      by by rewrite all_exec_promises.
    rewrite Ho. destruct (finished _); split; try done.
  - rewrite <- (race_settled_trace signal0 executor Hna).
    destruct (race_exec_inv signal0 executor Hna trace) as [Hc Hr Ho].
    rewrite <- (entered_finished _ _ _ Hc)
      by by rewrite race_exec_promises.
    rewrite Ho. destruct (finished _) eqn:Hfin; split; try done.
    + intros _. rewrite Hr. apply not_eq_None_Some.
      rewrite race_choice_nil_iff. unfold history, finished in *.
      rewrite race_exec_promises in Hfin by done.
      apply andb_true_iff in Hfin as [_ Hlen%Nat.eqb_eq].
      destruct (delivered _); [simpl in *; lia|done].
Qed.

Lemma result_exactly_when_last_settles_witness :
  aborted Sample.outer = false
  ∧ 0 < length (Sample.three new_signal)
  ∧ (settles_all (length (Sample.three new_signal)) (take 2 Sample.one_fails)
     = false
     ∧ All.outcome (All.exec Sample.outer Sample.three (take 2 Sample.one_fails))
       = None
     ∧ Race.outcome (Race.exec Sample.outer Sample.three (take 2 Sample.one_fails))
       = None)
  ∧ (settles_all (length (Sample.three new_signal)) Sample.one_fails = true
     ∧ is_Some (All.outcome (All.exec Sample.outer Sample.three Sample.one_fails))
     ∧ is_Some (Race.outcome (Race.exec Sample.outer Sample.three Sample.one_fails))).
Proof.
  split; [reflexivity|]. split; [simpl; lia|].
  split; [repeat split; reflexivity|].
  destruct (result_exactly_when_last_settles Sample.outer Sample.three
              Sample.one_fails eq_refl (le_S 1 2 (le_S 1 1 (le_n 1))))
    as [Ha Hr].
  split; [reflexivity|]. split; [apply Ha|apply Hr]; reflexivity.
Defined.

(** C4, on the code.  With an executor that returns no promise, [all]
    registers its listener and returns a promise that stays pending whatever
    happens afterwards: [settled()] is only called from the callbacks of the
    promises, and there is none. *)
Theorem all_empty_stays_pending (others : list nat) (trace : list event) :
  All.outcome
    (All.exec {| aborted := false; listeners := others |} Sample.none trace)
  = None
  ∧ All.results
      (All.exec {| aborted := false; listeners := others |} Sample.none trace)
    = []
  ∧ all_settled
      (All.env
         (All.exec {| aborted := false; listeners := others |} Sample.none trace))
    = true.
Proof.
  set (s0 := {| aborted := false; listeners := others |}).
  destruct (all_exec_inv s0 Sample.none eq_refl trace) as [Hc _ Hlen _ Ho].
  pose proof (all_exec_promises s0 Sample.none eq_refl trace) as Hp.
  split; [|split].
  - rewrite Ho. unfold finished. by rewrite Hp.
  - rewrite Hp in Hlen. by apply nil_length_inv.
  - apply (finished_all_settled _ _ _ Hc). by right.
Qed.

(** C5.  When the signal is already aborted, [all] and [race] reject the
    returned promise with a cancellation error before doing anything else:
    the executor has not been invoked, no inner controller exists, no
    promise and no listener was obtained, and no later event changes any of
    it. *)
Theorem aborted_signal_rejects_at_entry
    (signal0 : AbortSignal) (executor : AbortSignal → list future)
    (trace : list event) :
  aborted signal0 = true →
  (All.exec signal0 executor trace = All.all signal0 executor
   ∧ All.outcome (All.all signal0 executor) = Some (Rejected new_AbortError)
   ∧ All.env (All.all signal0 executor) = left_at_entry signal0)
  ∧ (Race.exec signal0 executor trace = Race.race signal0 executor
     ∧ Race.outcome (Race.race signal0 executor) = Some (Rejected new_AbortError)
     ∧ Race.env (Race.race signal0 executor) = left_at_entry signal0)
  ∧ isAbortError new_AbortError = true
  ∧ executor_calls (left_at_entry signal0) = 0
  ∧ innerAbortController (left_at_entry signal0) = None
  ∧ promises (left_at_entry signal0) = []
  ∧ signal (left_at_entry signal0) = signal0.
Proof.
  intros Ha. split; [|split; [|done]].
  - unfold All.exec, All.all. rewrite Ha. split; [|done].
    induction trace as [|ev trace IH]; [done|]. simpl.
    by rewrite all_left_at_entry_step.
  - unfold Race.exec, Race.race. rewrite Ha. split; [|done].
    induction trace as [|ev trace IH]; [done|]. simpl.
    by rewrite race_left_at_entry_step.
Qed.

Lemma aborted_signal_rejects_at_entry_witness :
  aborted Sample.outer_aborted = true
  ∧ All.exec Sample.outer_aborted Sample.three Sample.one_fails
    = All.all Sample.outer_aborted Sample.three
  ∧ All.outcome (All.all Sample.outer_aborted Sample.three)
    = Some (Rejected new_AbortError)
  ∧ executor_calls (All.env (All.all Sample.outer_aborted Sample.three)) = 0.
Proof.
  split; [reflexivity|].
  destruct (aborted_signal_rejects_at_entry Sample.outer_aborted Sample.three
              Sample.one_fails eq_refl) as [(H1 & H2 & H3) _].
  split; [exact H1|]. split; [exact H2|]. reflexivity.
Defined.

(** C6.  When [all] fulfils, the array it fulfils with has one slot per
    promise of the executor, every promise has fulfilled, and the slot at
    position [i] holds the value the promise at position [i] fulfilled with,
    in whatever order the promises settled. *)
Theorem all_results_keep_positions
    (signal0 : AbortSignal) (executor : AbortSignal → list future)
    (trace : list event) (rs : list (option value)) :
  aborted signal0 = false →
  All.outcome (All.exec signal0 executor trace) = Some (Fulfilled rs) →
  length rs = length (executor new_signal)
  ∧ (∀ i, i < length (executor new_signal) →
       ∃ v, (i, Fulfilled v) ∈ delivered (All.env (All.exec signal0 executor trace))
            ∧ rs !! i = Some (Some v))
  ∧ (∀ i s, (i, s) ∈ delivered (All.env (All.exec signal0 executor trace)) →
       ∃ v, s = Fulfilled v ∧ rs !! i = Some (Some v)).
Proof.
  intros Hna Hout.
  destruct (all_exec_inv signal0 executor Hna trace) as [Hc Hr Hlen Hres Ho].
  pose proof (all_exec_promises signal0 executor Hna trace) as Hp.
  rewrite Ho in Hout. destruct (finished _) eqn:Hfin; [|done].
  destruct (All.rejection _) eqn:Hrej; [done|].
  injection Hout as <-.
  assert (Hnone : first_rejection
            (history (All.env (All.exec signal0 executor trace))) = None).
  { symmetry in Hr. unfold all_choice in Hr.
    by destruct (first_genuine _). }
  assert (Hful : ∀ i s,
            (i, s) ∈ delivered (All.env (All.exec signal0 executor trace)) →
            ∃ v, s = Fulfilled v
                 ∧ All.results (All.exec signal0 executor trace) !! i
                   = Some (Some v)).
  { intros i [v|reason] Hin.
    - exists v. split; [done|]. by apply Hres.
    - exfalso. apply (first_rejection_None _ reason Hnone).
      unfold history. apply list_elem_of_fmap. by exists (i, Rejected reason). }
  split; [by rewrite Hlen, Hp|]. split; [|exact Hful].
  intros i Hi.
  assert (Hall : all_settled (All.env (All.exec signal0 executor trace)) = true).
  { apply (finished_all_settled _ _ _ Hc). by left. }
  rewrite all_settled_spec, Hp in Hall.
  apply Hall, list_elem_of_fmap in Hi as ([j s] & -> & Hin).
  destruct (Hful _ _ Hin) as (v & -> & Hv). by exists v.
Qed.

Lemma all_results_keep_positions_witness :
  aborted Sample.outer = false
  ∧ All.outcome (All.exec Sample.outer Sample.three Sample.out_of_order)
    = Some (Fulfilled [Some (VNumber 3); Some (VNumber 1); Some (VNumber 2)])
  ∧ length [Some (VNumber 3); Some (VNumber 1); Some (VNumber 2)]
    = length (Sample.three new_signal)
  ∧ (∀ i, i < length (Sample.three new_signal) →
       ∃ v, (i, Fulfilled v)
              ∈ delivered
                  (All.env (All.exec Sample.outer Sample.three Sample.out_of_order))
            ∧ [Some (VNumber 3); Some (VNumber 1); Some (VNumber 2)] !! i
              = Some (Some v))
  ∧ (∀ i s,
       (i, s) ∈ delivered
                 (All.env (All.exec Sample.outer Sample.three Sample.out_of_order)) →
       ∃ v, s = Fulfilled v
            ∧ [Some (VNumber 3); Some (VNumber 1); Some (VNumber 2)] !! i
              = Some (Some v)).
Proof.
  split; [reflexivity|]. split; [reflexivity|].
  apply (all_results_keep_positions Sample.outer Sample.three
           Sample.out_of_order); reflexivity.
Defined.

(** C7, on the code.  With an executor that returns no promise, every
    promise of the sequence has settled from the start, yet [all] never
    reaches [removeEventListener]: [settled()] is only called from the
    callbacks of the promises.  After any events [abortListener] is still
    registered on the outer signal, next to the listeners the signal had
    before the call. *)
Theorem all_empty_keeps_listener (others : list nat) (trace : list event) :
  settles_all (length (Sample.none new_signal)) trace = true
  ∧ listening
      (All.env
         (All.exec {| aborted := false; listeners := others |} Sample.none trace))
    = true
  ∧ listeners
      (signal
         (All.env
            (All.exec {| aborted := false; listeners := others |}
               Sample.none trace)))
    = others ++ [fresh_listener {| aborted := false; listeners := others |}].
Proof.
  set (s0 := {| aborted := false; listeners := others |}).
  destruct (all_exec_inv s0 Sample.none eq_refl trace) as [Hc _ _ _ _].
  pose proof (all_exec_promises s0 Sample.none eq_refl trace) as Hp.
  assert (Hfin : finished (All.env (All.exec s0 Sample.none trace)) = false).
  { unfold finished. by rewrite Hp. }
  split; [done|].
  split; [by rewrite (entered_listening _ _ _ Hc), Hfin|].
  destruct Hc as [_ _ _ _ _ Hls]. by rewrite Hls, Hfin.
Qed.

(** X15.  When the executor returned at least one promise, [abortListener]
    is registered on the outer signal exactly after the traces that leave
    some position of the sequence unsettled; after a trace that settles
    them all the outer signal carries the listeners it had before the call,
    and until then those and [abortListener].  This holds for [all] and for
    [race]. *)
Theorem listener_registered_until_last_settles
    (signal0 : AbortSignal) (executor : AbortSignal → list future)
    (trace : list event) :
  aborted signal0 = false →
  0 < length (executor new_signal) →
  (listening (All.env (All.exec signal0 executor trace))
   = negb (settles_all (length (executor new_signal)) trace)
   ∧ listeners (signal (All.env (All.exec signal0 executor trace)))
     = if settles_all (length (executor new_signal)) trace
       then listeners signal0
       else listeners signal0 ++ [fresh_listener signal0])
  ∧ (listening (Race.env (Race.exec signal0 executor trace))
     = negb (settles_all (length (executor new_signal)) trace)
     ∧ listeners (signal (Race.env (Race.exec signal0 executor trace)))
       = if settles_all (length (executor new_signal)) trace
         then listeners signal0
         else listeners signal0 ++ [fresh_listener signal0]).
Proof.
  intros Hna Hn. split.
  - rewrite <- (all_settled_trace signal0 executor Hna).
    destruct (all_exec_inv signal0 executor Hna trace) as [Hc _ _ _ _].
    rewrite <- (entered_finished _ _ _ Hc) by by rewrite all_exec_promises.
    split; [exact (entered_listening signal0 _ _ Hc)|].
    by destruct Hc.
  - rewrite <- (race_settled_trace signal0 executor Hna).
    destruct (race_exec_inv signal0 executor Hna trace) as [Hc _ _].
    rewrite <- (entered_finished _ _ _ Hc) by by rewrite race_exec_promises.
    split; [exact (entered_listening signal0 _ _ Hc)|].
    by destruct Hc.
Qed.

Lemma listener_registered_until_last_settles_witness :
  aborted Sample.outer = false
  ∧ 0 < length (Sample.three new_signal)
  ∧ settles_all (length (Sample.three new_signal)) Sample.one_fails = true
  ∧ (listening (All.env (All.exec Sample.outer Sample.three Sample.one_fails))
     = false
     ∧ listeners
         (signal (All.env (All.exec Sample.outer Sample.three Sample.one_fails)))
       = listeners Sample.outer)
  ∧ (listening (Race.env (Race.exec Sample.outer Sample.three Sample.one_fails))
     = false
     ∧ listeners
         (signal (Race.env (Race.exec Sample.outer Sample.three Sample.one_fails)))
       = listeners Sample.outer).
Proof.
  split; [reflexivity|]. split; [simpl; lia|]. split; [reflexivity|].
  apply (listener_registered_until_last_settles Sample.outer Sample.three
           Sample.one_fails); [reflexivity|simpl; lia].
Defined.

(* ===================================================================== *)
(** ** How one event changes the common part of a call *)
(* ===================================================================== *)

Section StepEnv.

Implicit Types (c : call).

Lemma all_step_settles_env (st : All.state) i s :
  pending i (All.env st) = true →
  All.env (All.step st (Settles i s)) =
  after_settlement (is_rejected s)
    (All.settledCount st + 1 =? length (promises (All.env st)))%nat
    i s (All.env st).
Proof.
  intros Hp. simpl. rewrite Hp. unfold after_settlement.
  destruct s as [v|reason]; simpl.
  - unfold All.onFulfilled. by rewrite (proj1 (all_settled_fields _)).
  - unfold All.onRejected.
    match goal with |- context [if ?b then _ else _] => destruct b end;
      rewrite (proj1 (all_settled_fields _)); reflexivity.
Qed.

Lemma race_step_settles_env (st : Race.state) i s :
  pending i (Race.env st) = true →
  Race.env (Race.step st (Settles i s)) =
  after_settlement true
    (Race.settledCount st + 1 =? length (promises (Race.env st)))%nat
    i s (Race.env st).
Proof.
  intros Hp. simpl. rewrite Hp. unfold after_settlement.
  destruct s as [v|reason]; simpl.
  - unfold Race.onFulfilled. rewrite (proj1 (race_settled_fields _ _)).
    destruct (Race.result st) eqn:E; simpl; by rewrite ?E.
  - unfold Race.onRejected.
    match goal with |- context [if ?b then _ else _] => destruct b end;
      rewrite (proj1 (race_settled_fields _ _)); reflexivity.
Qed.

Lemma after_settlement_inner aborts last i s c :
  innerAbortController (after_settlement aborts last i s c) =
  if aborts then abort <$> innerAbortController c else innerAbortController c.
Proof.
  unfold after_settlement, remove_abortListener.
  destruct aborts, last; simpl; by destruct (abortListener c).
Qed.

Lemma after_settlement_aborted aborts last i s c :
  aborted (signal (after_settlement aborts last i s c)) = aborted (signal c).
Proof.
  unfold after_settlement, remove_abortListener.
  destruct aborts, last; simpl; by destruct (abortListener c).
Qed.

Lemma after_settlement_delivered aborts last i s c :
  delivered (after_settlement aborts last i s c) = delivered c ++ [(i, s)].
Proof.
  unfold after_settlement, remove_abortListener.
  destruct aborts, last; simpl; by destruct (abortListener c).
Qed.

Lemma signal_aborts_inner c :
  innerAbortController (signal_aborts c) =
  if negb (aborted (signal c)) && listening c
  then abort <$> innerAbortController c else innerAbortController c.
Proof.
  unfold signal_aborts, listening. destruct (aborted (signal c)); [done|].
  simpl. destruct (abortListener c) eqn:E; [|done]. by case_bool_decide.
Qed.

Lemma signal_aborts_aborted c : aborted (signal (signal_aborts c)) = true.
Proof.
  unfold signal_aborts. destruct (aborted (signal c)) eqn:Ha; [done|].
  simpl. destruct (abortListener c) eqn:E; [|done]. by case_bool_decide.
Qed.

Lemma inner_aborted_abort c :
  is_Some (innerAbortController c) →
  inner_aborted (innerAbortController_abort c) = true.
Proof. intros [s Hs]. unfold inner_aborted. simpl. by rewrite Hs. Qed.

End StepEnv.

Section Cascade.

Variable signal0 : AbortSignal.
Implicit Types (c : call).

Lemma addEventListener_aborted (l : nat) (s : AbortSignal) :
  aborted (addEventListener l s) = aborted s.
Proof. unfold addEventListener. by case_bool_decide. Qed.

Lemma cascade_enter (executor : AbortSignal → list future) :
  aborted signal0 = false → cascade_inv false (enter signal0 executor).
Proof.
  intros Hna. split; simpl; [by eexists|done| |done].
  rewrite addEventListener_aborted. congruence.
Qed.

Lemma cascade_signal_aborts trigger c k :
  call_inv signal0 c k → cascade_inv trigger c →
  cascade_inv trigger (signal_aborts c).
Proof.
  intros Hc [[s Hs] Ht Ho Hn].
  pose proof (entered_listening signal0 c k Hc) as Hl.
  pose proof (signal_aborts_inner c) as Hi.
  assert (Hfin : finished (signal_aborts c) = finished c).
  { unfold finished.
    by rewrite signal_aborts_delivered, signal_aborts_promises. }
  destruct (aborted (signal c)) eqn:Ha; simpl in Hi.
  - assert (Hid : signal_aborts c = c) by (unfold signal_aborts; by rewrite Ha).
    rewrite Hid. split; [by eexists|exact Ht|by intros _; apply Ho|by right].
  - rewrite Hl, Hs in Hi.
    split; unfold inner_aborted in *;
      rewrite ?Hi, ?Hfin, ?signal_aborts_aborted; rewrite Hs in *.
    + destruct (finished c); simpl; by eexists.
    + intros H. specialize (Ht H). by destruct (finished c).
    + intros _ Hf. by rewrite Hf.
    + by right.
Qed.

Lemma cascade_settles trigger trigger' aborts last c k i s :
  call_inv signal0 c k → pending i c = true →
  trigger' = aborts || trigger →
  cascade_inv trigger c →
  cascade_inv trigger' (after_settlement aborts last i s c).
Proof.
  intros Hc Hp -> [[s0 Hs] Ht Ho Hn].
  destruct (call_inv_pending _ _ _ _ Hc Hp) as [_ Hfin].
  split; unfold inner_aborted in *;
    rewrite ?after_settlement_inner, ?after_settlement_aborted;
    rewrite Hs in *.
  - destruct aborts; by eexists.
  - destruct aborts; simpl; [done|]. exact Ht.
  - intros Ha _. destruct aborts; simpl; [done|]. by apply Ho.
  - destruct aborts; simpl; [by left|].
    intros H. by destruct (Hn H); [left|right].
Qed.

Lemma all_cascade_step (st : All.state) (ev : event) :
  all_inv signal0 st →
  cascade_inv (existsb is_rejected (history (All.env st))) (All.env st) →
  cascade_inv (existsb is_rejected (history (All.env (All.step st ev))))
    (All.env (All.step st ev)).
Proof.
  intros Hinv Hcas. pose proof (all_call _ _ Hinv) as Hcall.
  destruct ev as [|i s].
  - simpl. unfold history. rewrite signal_aborts_delivered.
    by apply (cascade_signal_aborts _ _ _ Hcall).
  - destruct (pending i (All.env st)) eqn:Hp; [|by simpl; rewrite Hp].
    rewrite (all_step_settles_env _ _ _ Hp).
    eapply cascade_settles; [exact Hcall|exact Hp| |exact Hcas].
    unfold history. rewrite after_settlement_delivered, fmap_app, existsb_app.
    simpl. rewrite orb_false_r. apply orb_comm.
Qed.

Lemma race_cascade_step (st : Race.state) (ev : event) :
  race_inv signal0 st →
  cascade_inv (any_delivered (Race.env st)) (Race.env st) →
  cascade_inv (any_delivered (Race.env (Race.step st ev)))
    (Race.env (Race.step st ev)).
Proof.
  intros Hinv Hcas. pose proof (race_call _ _ Hinv) as Hcall.
  destruct ev as [|i s].
  - simpl. unfold any_delivered. rewrite signal_aborts_delivered.
    by apply (cascade_signal_aborts _ _ _ Hcall).
  - destruct (pending i (Race.env st)) eqn:Hp; [|by simpl; rewrite Hp].
    rewrite (race_step_settles_env _ _ _ Hp).
    eapply cascade_settles; [exact Hcall|exact Hp| |exact Hcas].
    unfold any_delivered. rewrite after_settlement_delivered.
    by destruct (delivered (Race.env st)).
Qed.

Lemma all_cascade_run (st : All.state) (trace : list event) :
  all_inv signal0 st →
  cascade_inv (existsb is_rejected (history (All.env st))) (All.env st) →
  cascade_inv (existsb is_rejected (history (All.env (All.run st trace))))
    (All.env (All.run st trace)).
Proof.
  revert st. induction trace as [|ev trace IH]; intros st Hinv Hcas; [done|].
  simpl. apply IH; [by apply all_inv_step|by apply all_cascade_step].
Qed.

Lemma race_cascade_run (st : Race.state) (trace : list event) :
  race_inv signal0 st →
  cascade_inv (any_delivered (Race.env st)) (Race.env st) →
  cascade_inv (any_delivered (Race.env (Race.run st trace)))
    (Race.env (Race.run st trace)).
Proof.
  revert st. induction trace as [|ev trace IH]; intros st Hinv Hcas; [done|].
  simpl. apply IH; [by apply race_inv_step|by apply race_cascade_step].
Qed.

Lemma all_exec_cascade (executor : AbortSignal → list future) trace :
  aborted signal0 = false →
  cascade_inv
    (existsb is_rejected (history (All.env (All.exec signal0 executor trace))))
    (All.env (All.exec signal0 executor trace)).
Proof.
  intros Hna. apply all_cascade_run; [by apply all_inv_init|].
  unfold All.all. rewrite Hna. by apply cascade_enter.
Qed.

Lemma race_exec_cascade (executor : AbortSignal → list future) trace :
  aborted signal0 = false →
  cascade_inv (any_delivered (Race.env (Race.exec signal0 executor trace)))
    (Race.env (Race.exec signal0 executor trace)).
Proof.
  intros Hna. apply race_cascade_run; [by apply race_inv_init|].
  unfold Race.race. rewrite Hna. by apply cascade_enter.
Qed.

End Cascade.

Section OuterSignal.

Lemma all_step_aborted (st : All.state) (ev : event) :
  aborted (signal (All.env (All.step st ev)))
  = is_abort_event ev || aborted (signal (All.env st)).
Proof.
  destruct ev as [|i s].
  - simpl. apply signal_aborts_aborted.
  - destruct (pending i (All.env st)) eqn:Hp; [|by simpl; rewrite Hp].
    by rewrite (all_step_settles_env _ _ _ Hp), after_settlement_aborted.
Qed.

Lemma race_step_aborted (st : Race.state) (ev : event) :
  aborted (signal (Race.env (Race.step st ev)))
  = is_abort_event ev || aborted (signal (Race.env st)).
Proof.
  destruct ev as [|i s].
  - simpl. apply signal_aborts_aborted.
  - destruct (pending i (Race.env st)) eqn:Hp; [|by simpl; rewrite Hp].
    by rewrite (race_step_settles_env _ _ _ Hp), after_settlement_aborted.
Qed.

Lemma all_run_aborted (st : All.state) (trace : list event) :
  aborted (signal (All.env (All.run st trace)))
  = existsb is_abort_event trace || aborted (signal (All.env st)).
Proof.
  revert st. induction trace as [|ev trace IH]; intros st; [done|].
  simpl. rewrite IH, all_step_aborted.
  destruct (is_abort_event ev), (existsb is_abort_event trace); simpl;
    by rewrite ?orb_true_r.
Qed.

Lemma race_run_aborted (st : Race.state) (trace : list event) :
  aborted (signal (Race.env (Race.run st trace)))
  = existsb is_abort_event trace || aborted (signal (Race.env st)).
Proof.
  revert st. induction trace as [|ev trace IH]; intros st; [done|].
  simpl. rewrite IH, race_step_aborted.
  destruct (is_abort_event ev), (existsb is_abort_event trace); simpl;
    by rewrite ?orb_true_r.
Qed.

End OuterSignal.

Section Completed.

Variable signal0 : AbortSignal.

(** Once the call has finished, an event changes neither the closure
    variables nor the returned promise, the inner controller or the
    listeners. *)
Lemma all_finished_step (st : All.state) (ev : event) :
  all_inv signal0 st → finished (All.env st) = true →
  All.outcome (All.step st ev) = All.outcome st
  ∧ innerAbortController (All.env (All.step st ev))
    = innerAbortController (All.env st)
  ∧ listeners (signal (All.env (All.step st ev)))
    = listeners (signal (All.env st))
  ∧ finished (All.env (All.step st ev)) = true.
Proof.
  intros Hinv Hfin. pose proof (all_call _ _ Hinv) as Hc.
  destruct ev as [|i s].
  - simpl. rewrite signal_aborts_inner, signal_aborts_listeners.
    rewrite (entered_listening _ _ _ Hc), Hfin, andb_false_r.
    repeat split; try done. unfold finished in *.
    by rewrite signal_aborts_delivered, signal_aborts_promises.
  - destruct (pending i (All.env st)) eqn:Hp; [|by simpl; rewrite Hp].
    destruct (call_inv_pending _ _ _ _ Hc Hp) as [_ Hf]. congruence.
Qed.

Lemma race_finished_step (st : Race.state) (ev : event) :
  race_inv signal0 st → finished (Race.env st) = true →
  Race.outcome (Race.step st ev) = Race.outcome st
  ∧ innerAbortController (Race.env (Race.step st ev))
    = innerAbortController (Race.env st)
  ∧ listeners (signal (Race.env (Race.step st ev)))
    = listeners (signal (Race.env st))
  ∧ finished (Race.env (Race.step st ev)) = true.
Proof.
  intros Hinv Hfin. pose proof (race_call _ _ Hinv) as Hc.
  destruct ev as [|i s].
  - simpl. rewrite signal_aborts_inner, signal_aborts_listeners.
    rewrite (entered_listening _ _ _ Hc), Hfin, andb_false_r.
    repeat split; try done. unfold finished in *.
    by rewrite signal_aborts_delivered, signal_aborts_promises.
  - destruct (pending i (Race.env st)) eqn:Hp; [|by simpl; rewrite Hp].
    destruct (call_inv_pending _ _ _ _ Hc Hp) as [_ Hf]. congruence.
Qed.

Lemma all_finished_run (st : All.state) (trace : list event) :
  all_inv signal0 st → finished (All.env st) = true →
  All.outcome (All.run st trace) = All.outcome st
  ∧ innerAbortController (All.env (All.run st trace))
    = innerAbortController (All.env st)
  ∧ listeners (signal (All.env (All.run st trace)))
    = listeners (signal (All.env st)).
Proof.
  revert st. induction trace as [|ev trace IH]; intros st Hinv Hfin; [done|].
  destruct (all_finished_step st ev Hinv Hfin) as (Ho & Hi & Hl & Hf).
  simpl. destruct (IH _ (all_inv_step _ _ ev Hinv) Hf) as (Ho' & Hi' & Hl').
  by rewrite Ho', Hi', Hl'.
Qed.

Lemma race_finished_run (st : Race.state) (trace : list event) :
  race_inv signal0 st → finished (Race.env st) = true →
  Race.outcome (Race.run st trace) = Race.outcome st
  ∧ innerAbortController (Race.env (Race.run st trace))
    = innerAbortController (Race.env st)
  ∧ listeners (signal (Race.env (Race.run st trace)))
    = listeners (signal (Race.env st)).
Proof.
  revert st. induction trace as [|ev trace IH]; intros st Hinv Hfin; [done|].
  destruct (race_finished_step st ev Hinv Hfin) as (Ho & Hi & Hl & Hf).
  simpl. destruct (IH _ (race_inv_step _ _ ev Hinv) Hf) as (Ho' & Hi' & Hl').
  by rewrite Ho', Hi', Hl'.
Qed.

End Completed.

Section Values.

Implicit Types (log : list (nat * settlement value)).

Lemma value_at_Some log i v :
  value_at log i = Some v → (i, Fulfilled v) ∈ log.
Proof.
  induction log as [|[j s] log IH]; simpl; [done|].
  case_bool_decide as Hj.
  - subst j. destruct s as [w|r]; [|done]. intros [= ->]. by left.
  - intros H. right. by apply IH.
Qed.

Lemma value_at_elem log i v :
  NoDup log.*1 → (i, Fulfilled v) ∈ log → value_at log i = Some v.
Proof.
  induction log as [|[j s] log IH]; simpl; intros Hnd Hin.
  - by apply elem_of_nil in Hin.
  - apply NoDup_cons in Hnd as [Hj Hnd].
    apply elem_of_cons in Hin as [[= <- <-]|Hin].
    + by rewrite bool_decide_eq_true_2.
    + rewrite bool_decide_eq_false_2; [by apply IH|].
      intros ->. apply Hj. apply list_elem_of_fmap.
      by exists (i, Fulfilled v).
Qed.

Lemma all_choice_no_rejection (log : list (settlement value)) :
  existsb is_rejected log = false → all_choice log = None.
Proof.
  unfold all_choice. induction log as [|[v|r] log IH]; simpl; [done| |done].
  intros H. specialize (IH H). by destruct (first_genuine log).
Qed.

Lemma settles_each_once_spec (n : nat) (trace : list event) :
  settles_each_once n trace = true →
  NoDup (settle_events trace).*1
  ∧ Forall (λ i, i < n) (settle_events trace).*1
  ∧ length (settle_events trace) = n.
Proof.
  unfold settles_each_once.
  intros [[Hnd Hb]%andb_true_iff Hlen%Nat.eqb_eq]%andb_true_iff.
  split; [by apply bool_decide_eq_true in Hnd|]. split; [|done].
  apply Forall_forall. intros i Hi. rewrite forallb_forall in Hb.
  apply Nat.ltb_lt, Hb. by apply list_elem_of_In.
Qed.

End Values.

Section LogFacts.

Implicit Types (log : list (settlement value)).

Lemma existsb_false_elem {A} (f : A → bool) (l : list A) (x : A) :
  existsb f l = false → x ∈ l → f x = false.
Proof.
  induction l as [|y l IH]; simpl; intros H Hin.
  - by apply elem_of_nil in Hin.
  - apply orb_false_iff in H as [Hy Hl].
    apply elem_of_cons in Hin as [->|Hin]; [done|by apply IH].
Qed.

Lemma first_genuine_no_genuine log :
  existsb is_genuine log = false → first_genuine log = None.
Proof.
  induction log as [|[v|r] log IH]; simpl; [done|done|].
  destruct (isAbortError r); simpl; [done|discriminate].
Qed.

Lemma first_rejection_existsb log :
  existsb is_rejected log = true → is_Some (first_rejection log).
Proof.
  induction log as [|[v|r] log IH]; simpl; [done|done|by eexists].
Qed.

Lemma first_genuine_cancelled log :
  forallb is_cancelled log = true → first_genuine log = None.
Proof.
  induction log as [|[v|r] log IH]; simpl; [done|done|].
  intros [Hr Hl]%andb_true_iff. rewrite Hr. by apply IH.
Qed.

Lemma race_choice_elem log s : race_choice log = Some s → s ∈ log.
Proof.
  unfold race_choice. destruct (first_genuine log) as [g|] eqn:Hg.
  - intros [= <-]. by apply first_genuine_Some in Hg as [_ ?].
  - destruct log as [|s' log]; [done|]. intros [= <-]. by left.
Qed.

Lemma all_choice_elem log reason :
  all_choice log = Some reason → Rejected reason ∈ log.
Proof.
  unfold all_choice. destruct (first_genuine log) as [g|] eqn:Hg.
  - intros [= <-]. by apply first_genuine_Some in Hg as [_ ?].
  - apply first_rejection_Some.
Qed.

End LogFacts.

(* ===================================================================== *)
(** ** Further properties of all.js and race.js *)
(* ===================================================================== *)

(** X1.  With an executor that returns no promise, [race] returns a promise
    that stays pending whatever happens afterwards, and its listener stays
    on the outer signal. *)
Theorem race_empty_stays_pending (others : list nat) (trace : list event) :
  Race.outcome
    (Race.exec {| aborted := false; listeners := others |} Sample.none trace)
  = None
  ∧ listening
      (Race.env
         (Race.exec {| aborted := false; listeners := others |} Sample.none trace))
    = true.
Proof.
  set (s0 := {| aborted := false; listeners := others |}).
  destruct (race_exec_inv s0 Sample.none eq_refl trace) as [Hc _ Ho].
  pose proof (race_exec_promises s0 Sample.none eq_refl trace) as Hp.
  assert (Hfin : finished (Race.env (Race.exec s0 Sample.none trace)) = false).
  { unfold finished. by rewrite Hp. }
  split; [by rewrite Ho, Hfin|].
  by rewrite (entered_listening _ _ _ Hc), Hfin.
Qed.

(** At every moment the slot [i] of [results] holds the value the promise
    at position [i] fulfilled with, and is a hole otherwise. *)
Lemma all_results_value_at (signal0 : AbortSignal) (st : All.state) :
  all_inv signal0 st →
  All.results st
  = value_at (delivered (All.env st)) <$> seq 0 (length (promises (All.env st))).
Proof.
  intros [Hc _ Hlen Hres _]. apply list_eq. intros i.
  rewrite list_lookup_fmap.
  destruct (decide (i < length (promises (All.env st)))) as [Hi|Hi].
  - rewrite lookup_seq_lt by done. simpl.
    destruct (lookup_lt_is_Some_2 (All.results st) i) as [x Hx];
      [by rewrite Hlen|].
    rewrite Hx. f_equal. destruct x as [v|].
    + symmetry. apply value_at_elem; [by destruct Hc|]. by apply Hres.
    + destruct (value_at _ i) as [v|] eqn:E; [|done].
      apply value_at_Some, Hres in E. congruence.
  - rewrite lookup_ge_None_2 by (rewrite Hlen; lia).
    by rewrite lookup_seq_ge by lia.
Qed.

(** X2.  When each promise of a non-empty sequence settles exactly once and
    none rejects, [all] fulfils, and the array it fulfils with holds at
    every position the value of the promise at that position, in whatever
    order the trace delivered them; no slot is left a hole. *)
Theorem all_fulfils_by_position
    (signal0 : AbortSignal) (executor : AbortSignal → list future)
    (trace : list event) :
  aborted signal0 = false →
  0 < length (executor new_signal) →
  settles_each_once (length (executor new_signal)) trace = true →
  existsb is_rejected (settle_events trace).*2 = false →
  All.outcome (All.exec signal0 executor trace)
  = Some (Fulfilled (value_at (settle_events trace)
                       <$> seq 0 (length (executor new_signal))))
  ∧ Forall is_Some (value_at (settle_events trace)
                      <$> seq 0 (length (executor new_signal))).
Proof.
  intros Hna Hn Honce Hnorej.
  destruct (settles_each_once_spec _ _ Honce) as (Hnd & Hb & Hlen).
  pose proof (all_exec_delivered signal0 executor Hna trace Hnd Hb) as Hd.
  pose proof (all_exec_promises signal0 executor Hna trace) as Hp.
  pose proof (all_exec_inv signal0 executor Hna trace) as Hinv.
  pose proof (all_results_value_at _ _ Hinv) as Hres.
  destruct Hinv as [Hc Hr _ _ Ho].
  rewrite Hd, Hp in Hres. split.
  - rewrite Ho, Hr. unfold finished, history. rewrite Hp, Hd, Hlen.
    rewrite Nat.eqb_refl, (proj2 (Nat.ltb_lt _ _) Hn). simpl.
    by rewrite all_choice_no_rejection, Hres.
  - apply Forall_fmap, Forall_forall. intros i Hi%elem_of_seq. simpl.
    assert (Hin : i ∈ (settle_events trace).*1).
    { apply (positions_full _ _ Hnd Hb); [by rewrite length_fmap|lia]. }
    apply list_elem_of_fmap in Hin as ([j s] & -> & Hin). simpl.
    destruct s as [v|r].
    + exists v. by apply value_at_elem.
    + assert (is_rejected (Rejected r) = false); [|done].
      apply (existsb_false_elem _ _ _ Hnorej).
      apply list_elem_of_fmap. by exists (j, Rejected r).
Qed.

Lemma all_fulfils_by_position_witness :
  aborted Sample.outer = false
  ∧ 0 < length (Sample.three new_signal)
  ∧ settles_each_once (length (Sample.three new_signal)) Sample.out_of_order
    = true
  ∧ existsb is_rejected (settle_events Sample.out_of_order).*2 = false
  ∧ All.outcome (All.exec Sample.outer Sample.three Sample.out_of_order)
    = Some (Fulfilled (value_at (settle_events Sample.out_of_order)
                         <$> seq 0 (length (Sample.three new_signal))))
  ∧ Forall is_Some (value_at (settle_events Sample.out_of_order)
                      <$> seq 0 (length (Sample.three new_signal))).
Proof.
  split; [reflexivity|]. split; [simpl; lia|].
  split; [vm_compute; reflexivity|]. split; [reflexivity|].
  apply (all_fulfils_by_position Sample.outer Sample.three Sample.out_of_order);
    [reflexivity|simpl; lia|vm_compute; reflexivity|reflexivity].
Defined.

(** X3.  When all promises have settled, at least one rejected and every
    rejection carried a cancellation error, [all] rejects with the first
    rejection reason delivered, which is a cancellation error. *)
Theorem all_only_cancellations
    (signal0 : AbortSignal) (executor : AbortSignal → list future)
    (trace : list event) :
  aborted signal0 = false →
  all_settled (All.env (All.exec signal0 executor trace)) = true →
  existsb is_rejected (history (All.env (All.exec signal0 executor trace))) = true →
  existsb is_genuine (history (All.env (All.exec signal0 executor trace))) = false →
  ∃ reason,
    first_rejection (history (All.env (All.exec signal0 executor trace)))
      = Some reason
    ∧ isAbortError reason = true
    ∧ All.outcome (All.exec signal0 executor trace) = Some (Rejected reason).
Proof.
  intros Hna Hall Hrej Hgen.
  destruct (all_exec_inv signal0 executor Hna trace) as [Hc Hr _ _ Ho].
  pose proof (first_genuine_no_genuine _ Hgen) as Hg.
  destruct (first_rejection_existsb _ Hrej) as [reason Hf].
  exists reason. split; [done|].
  split; [by apply (first_genuine_None _ _ Hg), first_rejection_Some|].
  assert (Hn : 0 < length (promises (All.env (All.exec signal0 executor trace)))).
  { destruct Hc as [_ _ _ Hb _ _]. unfold history in Hrej.
    destruct (delivered _) as [|[i s] l]; [done|].
    apply Forall_cons in Hb as [Hi _]. simpl in Hi. lia. }
  rewrite (entered_finished _ _ _ Hc Hn), Hall in Ho.
  rewrite Ho, Hr. unfold all_choice. by rewrite Hg, Hf.
Qed.

Lemma all_only_cancellations_witness :
  aborted Sample.outer = false
  ∧ all_settled
      (All.env (All.exec Sample.outer Sample.three Scenario.all_cancelled))
    = true
  ∧ existsb is_rejected
      (history (All.env (All.exec Sample.outer Sample.three Scenario.all_cancelled)))
    = true
  ∧ existsb is_genuine
      (history (All.env (All.exec Sample.outer Sample.three Scenario.all_cancelled)))
    = false
  ∧ ∃ reason,
      first_rejection
        (history (All.env (All.exec Sample.outer Sample.three Scenario.all_cancelled)))
        = Some reason
      ∧ isAbortError reason = true
      ∧ All.outcome (All.exec Sample.outer Sample.three Scenario.all_cancelled)
        = Some (Rejected reason).
Proof.
  split; [reflexivity|]. split; [reflexivity|]. split; [reflexivity|].
  split; [reflexivity|].
  apply (all_only_cancellations Sample.outer Sample.three Scenario.all_cancelled);
    reflexivity.
Defined.

(** X4.  When every promise of a non-empty sequence has settled and each of
    them rejected with a cancellation error, [race] rejects with the first
    reason delivered, which is a cancellation error. *)
Theorem race_only_cancellations
    (signal0 : AbortSignal) (executor : AbortSignal → list future)
    (trace : list event) :
  aborted signal0 = false →
  0 < length (executor new_signal) →
  all_settled (Race.env (Race.exec signal0 executor trace)) = true →
  forallb is_cancelled (history (Race.env (Race.exec signal0 executor trace))) = true →
  ∃ reason,
    head (history (Race.env (Race.exec signal0 executor trace)))
      = Some (Rejected reason)
    ∧ isAbortError reason = true
    ∧ Race.outcome (Race.exec signal0 executor trace) = Some (Rejected reason).
Proof.
  intros Hna Hn Hall Hcan.
  destruct (race_exec_inv signal0 executor Hna trace) as [Hc Hr Ho].
  pose proof (race_exec_promises signal0 executor Hna trace) as Hp.
  rewrite (entered_finished _ _ _ Hc), Hall in Ho by by rewrite Hp.
  rewrite Ho, Hr. unfold race_choice.
  rewrite (first_genuine_cancelled _ Hcan).
  apply (all_settled_length _ (inv_nodup _ _ _ Hc) (inv_bound _ _ _ Hc)) in Hall.
  unfold history in *. rewrite Hp in Hall.
  destruct (delivered _) as [|[i [v|reason]] l]; simpl in *; [lia|done|].
  apply andb_true_iff in Hcan as [Hr' _]. by exists reason.
Qed.

Lemma race_only_cancellations_witness :
  aborted Sample.outer = false
  ∧ 0 < length (Sample.three new_signal)
  ∧ all_settled
      (Race.env (Race.exec Sample.outer Sample.three Scenario.all_cancelled))
    = true
  ∧ forallb is_cancelled
      (history (Race.env (Race.exec Sample.outer Sample.three Scenario.all_cancelled)))
    = true
  ∧ ∃ reason,
      head (history
              (Race.env (Race.exec Sample.outer Sample.three Scenario.all_cancelled)))
        = Some (Rejected reason)
      ∧ isAbortError reason = true
      ∧ Race.outcome (Race.exec Sample.outer Sample.three Scenario.all_cancelled)
        = Some (Rejected reason).
Proof.
  split; [reflexivity|]. split; [simpl; lia|]. split; [reflexivity|].
  split; [reflexivity|].
  apply (race_only_cancellations Sample.outer Sample.three Scenario.all_cancelled);
    [reflexivity|simpl; lia|reflexivity|reflexivity].
Defined.

(** X5.  In [all], once a rejection has been delivered the inner controller
    is aborted, so the siblings are told to stop. *)
Theorem all_rejection_aborts_inner
    (signal0 : AbortSignal) (executor : AbortSignal → list future)
    (trace : list event) :
  aborted signal0 = false →
  existsb is_rejected (history (All.env (All.exec signal0 executor trace))) = true →
  inner_aborted (All.env (All.exec signal0 executor trace)) = true.
Proof.
  intros Hna Hrej.
  by apply (cascade_trigger _ _ (all_exec_cascade signal0 executor trace Hna)).
Qed.

Lemma all_rejection_aborts_inner_witness :
  aborted Sample.outer = false
  ∧ existsb is_rejected
      (history (All.env (All.exec Sample.outer Sample.three
                           (take 1 Sample.one_fails))))
    = true
  ∧ inner_aborted
      (All.env (All.exec Sample.outer Sample.three (take 1 Sample.one_fails)))
    = true.
Proof.
  split; [reflexivity|]. split; [reflexivity|].
  apply (all_rejection_aborts_inner Sample.outer Sample.three
           (take 1 Sample.one_fails)); reflexivity.
Defined.

(** X6.  In [race], once any settlement has been delivered, a fulfilment as
    much as a rejection, the inner controller is aborted. *)
Theorem race_settlement_aborts_inner
    (signal0 : AbortSignal) (executor : AbortSignal → list future)
    (trace : list event) :
  aborted signal0 = false →
  any_delivered (Race.env (Race.exec signal0 executor trace)) = true →
  inner_aborted (Race.env (Race.exec signal0 executor trace)) = true.
Proof.
  intros Hna Hany.
  by apply (cascade_trigger _ _ (race_exec_cascade signal0 executor trace Hna)).
Qed.

Lemma race_settlement_aborts_inner_witness :
  aborted Sample.outer = false
  ∧ any_delivered
      (Race.env (Race.exec Sample.outer Sample.two
                   (take 1 Sample.fulfilled_then_fails)))
    = true
  ∧ inner_aborted
      (Race.env (Race.exec Sample.outer Sample.two
                   (take 1 Sample.fulfilled_then_fails)))
    = true.
Proof.
  split; [reflexivity|]. split; [reflexivity|].
  apply (race_settlement_aborts_inner Sample.outer Sample.two
           (take 1 Sample.fulfilled_then_fails)); reflexivity.
Defined.

(** X7.  In [all], fulfilments never cancel the siblings: while the outer
    signal has not aborted and no promise has rejected, the inner controller
    is not aborted. *)
Theorem all_fulfilments_keep_inner
    (signal0 : AbortSignal) (executor : AbortSignal → list future)
    (trace : list event) :
  aborted signal0 = false →
  existsb is_abort_event trace = false →
  existsb is_rejected (history (All.env (All.exec signal0 executor trace))) = false →
  inner_aborted (All.env (All.exec signal0 executor trace)) = false.
Proof.
  intros Hna Hquiet Hrej.
  pose proof (all_exec_cascade signal0 executor trace Hna) as Hcas.
  destruct (inner_aborted _) eqn:Hi; [|done].
  destruct (cascade_only _ _ Hcas Hi) as [H|H]; [congruence|].
  unfold All.exec in H. rewrite all_run_aborted, Hquiet in H.
  unfold All.all in H. rewrite Hna in H. simpl in H.
  rewrite addEventListener_aborted in H. congruence.
Qed.

Lemma all_fulfilments_keep_inner_witness :
  aborted Sample.outer = false
  ∧ existsb is_abort_event Scenario.two_fulfilled = false
  ∧ existsb is_rejected
      (history (All.env (All.exec Sample.outer Sample.three Scenario.two_fulfilled)))
    = false
  ∧ inner_aborted
      (All.env (All.exec Sample.outer Sample.three Scenario.two_fulfilled))
    = false.
Proof.
  split; [reflexivity|]. split; [reflexivity|]. split; [reflexivity|].
  apply (all_fulfilments_keep_inner Sample.outer Sample.three
           Scenario.two_fulfilled); reflexivity.
Defined.

(** X8.  When the outer signal aborts while some promise of the executor has
    not settled, the inner controller is aborted, in [all] and in [race]. *)
Theorem outer_abort_reaches_inner
    (signal0 : AbortSignal) (executor : AbortSignal → list future)
    (trace : list event) :
  aborted signal0 = false →
  existsb is_abort_event trace = true →
  all_settled (All.env (All.exec signal0 executor trace)) = false →
  all_settled (Race.env (Race.exec signal0 executor trace)) = false →
  inner_aborted (All.env (All.exec signal0 executor trace)) = true
  ∧ inner_aborted (Race.env (Race.exec signal0 executor trace)) = true.
Proof.
  intros Hna Hab Hall Hrace. split.
  - pose proof (all_exec_cascade signal0 executor trace Hna) as Hcas.
    destruct (all_exec_inv signal0 executor Hna trace) as [Hc _ _ _ _].
    apply (cascade_outer _ _ Hcas).
    + unfold All.exec. by rewrite all_run_aborted, Hab.
    + destruct (finished _) eqn:Hf; [|done].
      rewrite <- Hall. symmetry. apply (finished_all_settled _ _ _ Hc).
      by left.
  - pose proof (race_exec_cascade signal0 executor trace Hna) as Hcas.
    destruct (race_exec_inv signal0 executor Hna trace) as [Hc _ _].
    apply (cascade_outer _ _ Hcas).
    + unfold Race.exec. by rewrite race_run_aborted, Hab.
    + destruct (finished _) eqn:Hf; [|done].
      rewrite <- Hrace. symmetry. apply (finished_all_settled _ _ _ Hc).
      by left.
Qed.

Lemma outer_abort_reaches_inner_witness :
  aborted Sample.outer = false
  ∧ existsb is_abort_event Scenario.aborted_midway = true
  ∧ all_settled
      (All.env (All.exec Sample.outer Sample.three Scenario.aborted_midway))
    = false
  ∧ all_settled
      (Race.env (Race.exec Sample.outer Sample.three Scenario.aborted_midway))
    = false
  ∧ inner_aborted
      (All.env (All.exec Sample.outer Sample.three Scenario.aborted_midway))
    = true
  ∧ inner_aborted
      (Race.env (Race.exec Sample.outer Sample.three Scenario.aborted_midway))
    = true.
Proof.
  split; [reflexivity|]. split; [reflexivity|]. split; [reflexivity|].
  split; [reflexivity|].
  apply (outer_abort_reaches_inner Sample.outer Sample.three
           Scenario.aborted_midway); reflexivity.
Defined.

Lemma all_exec_app (signal0 : AbortSignal)
    (executor : AbortSignal → list future) (trace more : list event) :
  All.exec signal0 executor (trace ++ more)
  = All.run (All.exec signal0 executor trace) more.
Proof. unfold All.exec, All.run. apply foldl_app. Qed.

Lemma race_exec_app (signal0 : AbortSignal)
    (executor : AbortSignal → list future) (trace more : list event) :
  Race.exec signal0 executor (trace ++ more)
  = Race.run (Race.exec signal0 executor trace) more.
Proof. unfold Race.exec, Race.run. apply foldl_app. Qed.

(** X9.  Once every promise of a non-empty sequence has settled, nothing
    that happens later (the outer signal aborting, stray settlements)
    changes the result of [all] or [race], aborts the inner controller, or
    touches the listeners of the outer signal. *)
Theorem completed_call_is_quiet
    (signal0 : AbortSignal) (executor : AbortSignal → list future)
    (trace more : list event) :
  aborted signal0 = false →
  0 < length (executor new_signal) →
  all_settled (All.env (All.exec signal0 executor trace)) = true →
  all_settled (Race.env (Race.exec signal0 executor trace)) = true →
  (All.outcome (All.exec signal0 executor (trace ++ more))
   = All.outcome (All.exec signal0 executor trace)
   ∧ innerAbortController (All.env (All.exec signal0 executor (trace ++ more)))
     = innerAbortController (All.env (All.exec signal0 executor trace))
   ∧ listeners (signal (All.env (All.exec signal0 executor (trace ++ more))))
     = listeners signal0)
  ∧ (Race.outcome (Race.exec signal0 executor (trace ++ more))
     = Race.outcome (Race.exec signal0 executor trace)
     ∧ innerAbortController (Race.env (Race.exec signal0 executor (trace ++ more)))
       = innerAbortController (Race.env (Race.exec signal0 executor trace))
     ∧ listeners (signal (Race.env (Race.exec signal0 executor (trace ++ more))))
       = listeners signal0).
Proof.
  intros Hna Hn Hall Hrace. split.
  - pose proof (all_exec_inv signal0 executor Hna trace) as Hinv.
    pose proof (all_call _ _ Hinv) as Hc.
    assert (Hfin : finished (All.env (All.exec signal0 executor trace)) = true).
    { rewrite (entered_finished _ _ _ Hc); [done|].
      by rewrite all_exec_promises. }
    rewrite !all_exec_app.
    destruct (all_finished_run signal0 _ more Hinv Hfin) as (Ho & Hi & Hl).
    split; [exact Ho|]. split; [exact Hi|].
    rewrite Hl. destruct Hc as [_ _ _ _ _ Hls]. by rewrite Hls, Hfin.
  - pose proof (race_exec_inv signal0 executor Hna trace) as Hinv.
    pose proof (race_call _ _ Hinv) as Hc.
    assert (Hfin : finished (Race.env (Race.exec signal0 executor trace)) = true).
    { rewrite (entered_finished _ _ _ Hc); [done|].
      by rewrite race_exec_promises. }
    rewrite !race_exec_app.
    destruct (race_finished_run signal0 _ more Hinv Hfin) as (Ho & Hi & Hl).
    split; [exact Ho|]. split; [exact Hi|].
    rewrite Hl. destruct Hc as [_ _ _ _ _ Hls]. by rewrite Hls, Hfin.
Qed.

Lemma completed_call_is_quiet_witness :
  aborted Sample.outer = false
  ∧ 0 < length (Sample.two new_signal)
  ∧ all_settled
      (All.env (All.exec Sample.outer Sample.two Sample.fulfilled_then_fails))
    = true
  ∧ all_settled
      (Race.env (Race.exec Sample.outer Sample.two Sample.fulfilled_then_fails))
    = true
  ∧ All.outcome
      (All.exec Sample.outer Sample.two
         (Sample.fulfilled_then_fails ++ Scenario.late))
    = All.outcome (All.exec Sample.outer Sample.two Sample.fulfilled_then_fails)
  ∧ Race.outcome
      (Race.exec Sample.outer Sample.two
         (Sample.fulfilled_then_fails ++ Scenario.late))
    = Race.outcome (Race.exec Sample.outer Sample.two Sample.fulfilled_then_fails).
Proof.
  split; [reflexivity|]. split; [simpl; lia|]. split; [reflexivity|].
  split; [reflexivity|].
  destruct (completed_call_is_quiet Sample.outer Sample.two
              Sample.fulfilled_then_fails Scenario.late
              eq_refl (le_S 1 1 (le_n 1)) eq_refl eq_refl) as [(Ha & _) (Hr & _)].
  split; [exact Ha|exact Hr].
Defined.

(** X10.  Neither combinator ever aborts the outer signal: after a call
    entered with a signal that was not aborted, the outer signal is aborted
    exactly when its owner aborted it, whatever the promises did and
    although the inner controller may have been aborted. *)
Theorem outer_signal_only_aborts_itself
    (signal0 : AbortSignal) (executor : AbortSignal → list future)
    (trace : list event) :
  aborted signal0 = false →
  aborted (signal (All.env (All.exec signal0 executor trace)))
  = existsb is_abort_event trace
  ∧ aborted (signal (Race.env (Race.exec signal0 executor trace)))
    = existsb is_abort_event trace.
Proof.
  intros Hna. split.
  - unfold All.exec. rewrite all_run_aborted. unfold All.all. rewrite Hna.
    simpl. by rewrite addEventListener_aborted, Hna, orb_false_r.
  - unfold Race.exec. rewrite race_run_aborted. unfold Race.race. rewrite Hna.
    simpl. by rewrite addEventListener_aborted, Hna, orb_false_r.
Qed.

Lemma outer_signal_only_aborts_itself_witness :
  aborted Sample.outer = false
  ∧ aborted (signal (All.env (All.exec Sample.outer Sample.three Sample.one_fails)))
    = existsb is_abort_event Sample.one_fails
  ∧ aborted (signal (Race.env (Race.exec Sample.outer Sample.three Sample.one_fails)))
    = existsb is_abort_event Sample.one_fails.
Proof.
  split; [reflexivity|].
  apply (outer_signal_only_aborts_itself Sample.outer Sample.three
           Sample.one_fails); reflexivity.
Defined.

(** X11.  After a call entered with a signal that was not aborted, the
    combinators make up no result of their own: a reason [all] rejects with
    is the reason one of the promises rejected with, and what [race] settles
    with is the settlement of one of the promises. *)
Theorem outcome_comes_from_a_promise
    (signal0 : AbortSignal) (executor : AbortSignal → list future)
    (trace : list event) :
  aborted signal0 = false →
  (∀ reason,
     All.outcome (All.exec signal0 executor trace) = Some (Rejected reason) →
     Rejected reason ∈ history (All.env (All.exec signal0 executor trace)))
  ∧ (∀ s,
       Race.outcome (Race.exec signal0 executor trace) = Some s →
       s ∈ history (Race.env (Race.exec signal0 executor trace))).
Proof.
  intros Hna. split.
  - intros reason Hout.
    destruct (all_exec_inv signal0 executor Hna trace) as [_ Hr _ _ Ho].
    rewrite Ho in Hout. destruct (finished _); [|done].
    destruct (All.rejection _) as [r|] eqn:Hrej; [|done].
    injection Hout as ->. apply all_choice_elem. by rewrite <- Hr.
  - intros s Hout.
    destruct (race_exec_inv signal0 executor Hna trace) as [_ Hr Ho].
    rewrite Ho in Hout. destruct (finished _); [|done].
    apply race_choice_elem. by rewrite <- Hr.
Qed.

Lemma outcome_comes_from_a_promise_witness :
  aborted Sample.outer = false
  ∧ Rejected Sample.boom
    ∈ history (All.env (All.exec Sample.outer Sample.three Sample.one_fails))
  ∧ Rejected Sample.boom
    ∈ history (Race.env (Race.exec Sample.outer Sample.three Sample.one_fails)).
Proof.
  split; [reflexivity|].
  destruct (outcome_comes_from_a_promise Sample.outer Sample.three
              Sample.one_fails eq_refl) as [Ha Hr].
  split; [by apply Ha|by apply Hr].
Defined.



(* ===================================================================== *)
(** ** Further properties of AbortError.js *)
(* ===================================================================== *)

(** X13.  What [throwIfAborted] throws is a cancellation error for the other
    helpers: [catchAbortError] swallows it and [rethrowAbortError] throws it
    again, unchanged. *)
Theorem thrown_by_throwIfAborted (signal0 : AbortSignal) (e : value) :
  throwIfAborted signal0 = Throw e →
  isAbortError e = true
  ∧ catchAbortError e = Normal tt
  ∧ rethrowAbortError e = Throw e.
Proof.
  unfold throwIfAborted. destruct (aborted signal0); [|done].
  by intros [= <-].
Qed.

Lemma thrown_by_throwIfAborted_witness :
  throwIfAborted Sample.outer_aborted = Throw new_AbortError
  ∧ isAbortError new_AbortError = true
  ∧ catchAbortError new_AbortError = Normal tt
  ∧ rethrowAbortError new_AbortError = Throw new_AbortError.
Proof.
  split; [reflexivity|].
  apply (thrown_by_throwIfAborted Sample.outer_aborted new_AbortError).
  reflexivity.
Defined.

(** X14.  [isAbortError] answers [false], without throwing, on [undefined]
    and [null], on every string (also ['AbortError']), on every function
    (also one named [AbortError], such as the class itself), and on every
    object that has no [name] or whose [name] is not a primitive string;
    it answers [true] on every object whose [name] is ['AbortError'],
    whatever else the object carries. *)
Theorem isAbortError_edge_cases :
  isAbortError VUndefined = false
  ∧ isAbortError VNull = false
  ∧ (∀ s, isAbortError (VString s) = false)
  ∧ (∀ props, isAbortError (VFunction props) = false)
  ∧ (∀ c props,
       lookup_prop "name" props = VUndefined →
       isAbortError (VObject c props) = false)
  ∧ (∀ c props c' inner,
       lookup_prop "name" props = VObject c' inner →
       isAbortError (VObject c props) = false)
  ∧ (∀ c props, isAbortError (VObject c (("name", VString "AbortError") :: props))
                = true)%string.
Proof.
  repeat split; try done.
  - intros c props H. unfold isAbortError. simpl. by rewrite H.
  - intros c props c' inner H. unfold isAbortError. simpl. by rewrite H.
Qed.
